(** * Path manager: segment sequencing, goal tests and supervision

    A shallow embedding of [flight/Modules/PathManager/pathmanager.c].
    The module's statics and the locals of [pathManagerTask] that survive a
    loop iteration are gathered in one record that every function takes and
    returns; the UAVObjects the module reads and writes form a second record.
    C [float] values are IEEE-754 binary32 numbers, computed with the
    parameterised operations of [SpecFloat] at precision 24 and maximal
    exponent 128. *)

From Stdlib Require Import ZArith List Bool Lia.
From Stdlib Require Import Floats.SpecFloat.
Import ListNotations.
Local Open Scope Z_scope.

(** ** Single-precision arithmetic *)

Module F32.

Definition prec : Z := 24.
Definition emax : Z := 128.

Definition float : Type := spec_float.

Definition zero : float := S754_zero false.

Definition add : float -> float -> float := SFadd prec emax.
Definition sub : float -> float -> float := SFsub prec emax.
Definition mul : float -> float -> float := SFmul prec emax.
Definition div : float -> float -> float := SFdiv prec emax.

(** The comparisons of C: all of [<], [>], [==] are false on a NaN, and
    [!=] is the negation of [==]. *)
Definition lt (x y : float) : bool := SFltb x y.
Definition gt (x y : float) : bool := SFltb y x.
Definition le (x y : float) : bool := SFleb x y.
Definition eq (x y : float) : bool := SFeqb x y.
Definition ne (x y : float) : bool := negb (SFeqb x y).

(** Conversion of a C [int] to [float], round to nearest even. *)
Definition of_int (z : Z) : float := binary_normalize prec emax z 0 false.

Definition fabsf : float -> float := SFabs.
Definition sqrtf : float -> float := SFsqrt prec emax.

(** [powf(x, 2)]. *)
Definition powf_2 (x : float) : float := mul x x.

(** [ceilf]: a finite number with a negative exponent is [m / 2^(-e)];
    its ceiling is an integer below [2^24], which converts exactly. *)
Definition ceilf (x : float) : float :=
  match x with
  | S754_finite s m e =>
      if 0 <=? e then x
      else
        let d := 2 ^ (- e) in
        if s then
          let k := Zpos m / d in
          if k =? 0 then S754_zero true else of_int (- k)
        else of_int ((Zpos m + d - 1) / d)
  | _ => x
  end.

(** Truncation toward zero, the value part of a C conversion from [float]
    to an integer type; there is none for a NaN or an infinity. *)
Definition truncate (x : float) : option Z :=
  match x with
  | S754_zero _ => Some 0
  | S754_finite s m e =>
      Some (cond_Zopp s (if 0 <=? e then Zpos m * 2 ^ e
                         else Zpos m / 2 ^ (- e)))
  | S754_infinity _ | S754_nan => None
  end.

Definition valid (x : float) : bool := valid_binary prec emax x.

(** The sign bit of a number, which a NaN does not have. *)
Definition has_sign (s : bool) (x : float) : Prop :=
  match x with
  | S754_zero s' | S754_infinity s' | S754_finite s' _ _ => s' = s
  | S754_nan => False
  end.

End F32.

Definition float : Type := F32.float.

(** ** Data model *)

(** [float[3]] positions, elements North, East, Down; the two-element
    arrays of the module are the first two components. *)
Record NED : Type := mkNED { North : float; East : float; Down : float }.
Record NE : Type := mkNE { North2 : float; East2 : float }.

Definition NE_of_NED (p : NED) : NE := mkNE (North p) (East p).

(** [enum guidanceTypes]. *)
Inductive guidanceTypes : Type :=
  | NOMANAGER | RETURNHOME | HOLDPOSITION | PATHPLANNER.

Definition guidanceTypes_eqb (a b : guidanceTypes) : bool :=
  match a, b with
  | NOMANAGER, NOMANAGER | RETURNHOME, RETURNHOME
  | HOLDPOSITION, HOLDPOSITION | PATHPLANNER, PATHPLANNER => true
  | _, _ => false
  end.

(** [enum arc_center_results] of the paths library. The module names
    [CENTER_FOUND] and [INSUFFICIENT_RADIUS] and treats every value but the
    first through the [default] label. *)
Inductive arc_center_results : Type :=
  | CENTER_FOUND | COINCIDENT_POINTS | INSUFFICIENT_RADIUS.

Inductive ArcRankOptions : Type := ARCRANK_MINOR | ARCRANK_MAJOR.

Definition ArcRank_is_minor (r : ArcRankOptions) : bool :=
  match r with ARCRANK_MINOR => true | ARCRANK_MAJOR => false end.

(** The fields of a [PathSegmentDescriptor] instance that the module reads.
    [NumberOfOrbits] is an unsigned integer field; the others are of type
    [float]. *)
Record PathSegmentDescriptorData : Type := mkDescriptor {
  SwitchingLocus : NED;
  FinalVelocity : float;
  PathCurvature : float;
  NumberOfOrbits : Z;
  ArcRank : ArcRankOptions
}.

(** The [Status] options of [PathManagerStatus]. The module writes
    [INPROGRESS], [TIMEDOUT] and [OVERSHOOT]. *)
Inductive StatusOptions : Type :=
  | STATUS_INPROGRESS | STATUS_COMPLETED | STATUS_TIMEDOUT | STATUS_OVERSHOOT.

Record PathManagerStatusData : Type := mkStatus {
  ActiveSegment : Z;
  PathCounter : Z;
  Status : StatusOptions;
  Timeout : Z
}.

(** [SwitchingStrategy]: the two options the [switch] names; any other
    stored value reaches its [default] label. *)
Inductive SwitchingStrategyOptions : Type :=
  | SWITCHINGSTRATEGY_HALFPLANE
  | SWITCHINGSTRATEGY_BBALL
  | SWITCHINGSTRATEGY_OTHER.

Record PathManagerSettingsData : Type := mkSettings {
  SwitchingStrategy : SwitchingStrategyOptions;
  HalfPlaneAdvanceTiming : float;
  BBallThresholdDistance : float
}.

Record FixedWingAirspeedsData : Type := mkAirspeeds {
  BestClimbRateSpeed : float
}.

Record PreviousLocus : Type := mkPreviousLocus {
  Position : NED;
  Velocity : float
}.

Inductive FlightModeOptions : Type :=
  | FLIGHTMODE_RETURNTOHOME
  | FLIGHTMODE_POSITIONHOLD
  | FLIGHTMODE_PATHPLANNER
  | FLIGHTMODE_OTHER.

Inductive PathAvailabilityOptions : Type :=
  | PATHAVAILABILITY_PATHREADY
  | PATHAVAILABILITY_OTHER.

Inductive AlarmLevel : Type := ALARM_CLEAR | ALARM_CRITICAL.

(** The UAVObjects the module exchanges with the other tasks. The instances
    of the multi-instance [PathSegmentDescriptor] are numbered from 0, so a
    list holds them: [UAVObjGetNumInstances] is its length and
    [PathSegmentDescriptorInstGet] a lookup that fails past the end. One
    record is what the objects hold during one iteration of the loop. *)
Record UAVObjects : Type := mkObjects {
  PathSegmentDescriptor : list PathSegmentDescriptorData;
  PositionActual : NE;
  FlightStatus_FlightMode : FlightModeOptions;
  PathPlannerStatus_PathAvailability : PathAvailabilityOptions;
  PathManagerSettings : PathManagerSettingsData;
  FixedWingAirspeeds : FixedWingAirspeedsData;
  PathManagerStatus : PathManagerStatusData;
  Alarm_PathManager : AlarmLevel
}.

(** The statics of the module, and the locals of [pathManagerTask] that
    live across iterations of its loop. *)
Record ManagerState : Type := mkState {
  fixedWingAirspeeds : FixedWingAirspeedsData;
  pathManagerSettings : PathManagerSettingsData;
  pathManagerStatus : PathManagerStatusData;
  pathSegmentDescriptor_current : PathSegmentDescriptorData;
  segmentTimer : Z;
  angularDistanceToComplete_D : float;
  angularDistanceCompleted_D : float;
  oldPosition_NE : NE;
  arcCenter_NE : NE;
  guidanceType : guidanceTypes;
  arc_has_center : arc_center_results;
  previousLocus : PreviousLocus;
  pathplanner_active : bool;
  lastSysTime : Z;
  overshootTimer : Z;
  theta_roundoff_trim_count : Z
}.

(** What one iteration reads besides the objects: the tick count returned
    by [xTaskGetTickCount], and the indeterminate initial content of the
    local [pathSegmentDescriptor_past], which [advanceSegment] keeps when
    the instance it asks for does not exist. *)
Record TickInput : Type := mkInput {
  objects : UAVObjects;
  tickCount : Z;
  uninitialized_past : PathSegmentDescriptorData
}.

(** *** Field updates *)

Definition set_Status (v : StatusOptions) (s : PathManagerStatusData) :=
  mkStatus (ActiveSegment s) (PathCounter s) v (Timeout s).
Definition set_ActiveSegment (v : Z) (s : PathManagerStatusData) :=
  mkStatus v (PathCounter s) (Status s) (Timeout s).
Definition set_PathCounter (v : Z) (s : PathManagerStatusData) :=
  mkStatus (ActiveSegment s) v (Status s) (Timeout s).
Definition set_Timeout (v : Z) (s : PathManagerStatusData) :=
  mkStatus (ActiveSegment s) (PathCounter s) (Status s) v.

(** [PathManagerStatusSet] and [AlarmsSet]. *)
Definition PathManagerStatusSet (v : PathManagerStatusData) (o : UAVObjects) :=
  mkObjects (PathSegmentDescriptor o) (PositionActual o)
    (FlightStatus_FlightMode o) (PathPlannerStatus_PathAvailability o)
    (PathManagerSettings o) (FixedWingAirspeeds o) v (Alarm_PathManager o).
Definition AlarmsSet_PathManager (v : AlarmLevel) (o : UAVObjects) :=
  mkObjects (PathSegmentDescriptor o) (PositionActual o)
    (FlightStatus_FlightMode o) (PathPlannerStatus_PathAvailability o)
    (PathManagerSettings o) (FixedWingAirspeeds o) (PathManagerStatus o) v.

(** [PathSegmentDescriptorInstGet(id, &dst)]: an existing instance is
    copied out, otherwise the destination keeps what it held. *)
Definition PathSegmentDescriptorInstGet
    (o : UAVObjects) (id : Z) (dst : PathSegmentDescriptorData)
  : PathSegmentDescriptorData :=
  if id <? 0 then dst
  else nth (Z.to_nat id) (PathSegmentDescriptor o) dst.

Definition UAVObjGetNumInstances (o : UAVObjects) : Z :=
  Z.of_nat (length (PathSegmentDescriptor o)).

(** ** What the module takes from the rest of the firmware *)

(** Build-time constants and integer widths that the headers fix. The
    conversion factors are constants of type [float]. *)
Record Platform : Type := mkPlatform {
  (** whether [PATH_PLANNER] is defined *)
  PATH_PLANNER : bool;
  portTICK_RATE_MS : Z;
  (** width of [portTickType] *)
  portTickType_bits : Z;
  (** widths of the [ActiveSegment] and [PathCounter] fields *)
  ActiveSegment_bits : Z;
  PathCounter_bits : Z;
  RAD2DEG : float;
  DEG2RAD : float;
  (** what the conversion of a [float] without a [uint16_t] value yields;
      C leaves it undefined *)
  uint16_of_float_undefined : float -> Z
}.

(** Functions and macros of the math and paths libraries and the program
    generators, none of which is defined in the module. The macro [SIGN]
    yields an [int]. An output array is passed in and returned. *)
Record Library : Type := mkLibrary {
  SIGN : float -> Z;
  find_arc_center :
    NED -> NED -> float -> bool -> bool -> NE -> arc_center_results * NE;
  measure_arc_rad : NE -> NE -> NE -> float;
  circular_modulus_deg : float -> float;
  half_plane_goal_test :
    NE -> float -> float -> NED ->
    PathSegmentDescriptorData -> PathSegmentDescriptorData ->
    float -> float -> bool;
  b_ball_goal_test : NE -> NED -> float -> bool;
  bound_min_max : float -> float -> float -> float;
  VectorMagnitude : NED -> float;
  simple_return_to_home : UAVObjects -> UAVObjects;
  simple_hold_position : UAVObjects -> UAVObjects;
  example_program : UAVObjects -> UAVObjects
}.

(** Private constants of the module. *)
Definition UPDATE_RATE_MS : Z := 100.
Definition IDLE_UPDATE_RATE_MS : Z := 200 - UPDATE_RATE_MS.
Definition OVERSHOOT_TIMER_MS : Z := 1000.
Definition ANGULAR_PROXIMITY_THRESHOLD : Z := 30.

(** Reduction of an unsigned result to its width. *)
Definition wrap (bits x : Z) : Z := x mod 2 ^ bits.

(** ** The module *)

Section PathManager.

Variable P : Platform.
Variable L : Library.

(** Assignment of a [float] to the [uint16_t] field [Timeout]. *)
Definition uint16_of_float (x : float) : Z :=
  match F32.truncate x with
  | Some z =>
      if (0 <=? z) && (z <=? 65535) then z
      else uint16_of_float_undefined P x
  | None => uint16_of_float_undefined P x
  end.

(** *** [advanceSegment] *)

(** Angular distance of the arc from the previous locus to the switching
    locus of [cur] about [center], the [CENTER_FOUND] case. *)
Definition partial_angle_D
    (prev : NED) (cur : PathSegmentDescriptorData) (center : NE) : float :=
  let tmpAngle_D :=
    F32.mul
      (measure_arc_rad L (NE_of_NED prev)
         (NE_of_NED (SwitchingLocus cur)) center)
      (RAD2DEG P) in
  if F32.lt (F32.mul (F32.of_int (SIGN L (PathCurvature cur))) tmpAngle_D)
       F32.zero
  then F32.add tmpAngle_D (F32.of_int (360 * SIGN L (PathCurvature cur)))
  else tmpAngle_D.

Definition arc_distance_D
    (prev : NED) (cur : PathSegmentDescriptorData) (center : NE) : float :=
  F32.add
    (F32.of_int (SIGN L (PathCurvature cur) * NumberOfOrbits cur * 360))
    (partial_angle_D prev cur center).

(** Length [s] of the segment, for the timeout. *)
Definition segment_length
    (past cur : PathSegmentDescriptorData) (toComplete_D : float) : float :=
  if F32.eq (PathCurvature cur) F32.zero then
    F32.sqrtf
      (F32.add
         (F32.powf_2 (F32.sub (North (SwitchingLocus cur))
                              (North (SwitchingLocus past))))
         (F32.powf_2 (F32.sub (East (SwitchingLocus cur))
                              (East (SwitchingLocus past)))))
  else
    F32.div (F32.mul toComplete_D (DEG2RAD P)) (PathCurvature cur).

Definition segment_timeout
    (cur : PathSegmentDescriptorData) (s : float) : Z :=
  if F32.gt (FinalVelocity cur) F32.zero then
    uint16_of_float
      (bound_min_max L
         (F32.ceilf (F32.div (F32.fabsf s) (FinalVelocity cur)))
         (F32.of_int 0) (F32.of_int 65535))
  else 65535.

Definition advanceSegment
    (st : ManagerState) (o : UAVObjects) (now : Z)
    (past0 : PathSegmentDescriptorData) : ManagerState * UAVObjects :=
  let pathSegmentDescriptor_past :=
    PathSegmentDescriptorInstGet o
      (ActiveSegment (pathManagerStatus st)) past0 in
  let prev :=
    mkPreviousLocus (SwitchingLocus pathSegmentDescriptor_past)
      (FinalVelocity pathSegmentDescriptor_past) in
  (* Advance segment *)
  let status1 :=
    set_Status STATUS_INPROGRESS
      (set_ActiveSegment
         (wrap (ActiveSegment_bits P)
            (ActiveSegment (pathManagerStatus st) + 1))
         (pathManagerStatus st)) in
  let o1 := PathManagerStatusSet status1 o in
  (* Load current segment into global memory *)
  let cur :=
    PathSegmentDescriptorInstGet o1 (ActiveSegment status1)
      (pathSegmentDescriptor_current st) in
  (* Reset angular distance; if the path is an arc, find the center and
     the angular distance along the arc *)
  let '(has_center, center, oldPos, toComplete) :=
    if F32.ne (PathCurvature cur) F32.zero then
      let '(res, center) :=
        find_arc_center L (Position prev) (SwitchingLocus cur)
          (F32.div (F32.of_int 1) (PathCurvature cur))
          (F32.gt (PathCurvature cur) F32.zero)
          (ArcRank_is_minor (ArcRank cur))
          (arcCenter_NE st) in
      match res with
      | CENTER_FOUND =>
          (res, center, NE_of_NED (Position prev),
           arc_distance_D (Position prev) cur center)
      | _ => (res, center, oldPosition_NE st, F32.zero)
      end
    else
      (arc_has_center st, arcCenter_NE st, oldPosition_NE st, F32.zero) in
  (* Calculate timeout *)
  let s := segment_length pathSegmentDescriptor_past cur toComplete in
  let status2 := set_Timeout (segment_timeout cur s) status1 in
  let o2 := PathManagerStatusSet status2 o1 in
  (mkState (fixedWingAirspeeds st) (pathManagerSettings st) status2 cur
     now toComplete F32.zero oldPos center (guidanceType st) has_center
     prev (pathplanner_active st) (lastSysTime st) (overshootTimer st)
     (theta_roundoff_trim_count st),
   o2).

(** The descriptor that an advance from [st] loads, and the one it leaves
    behind. *)
Definition loaded_descriptor (st : ManagerState) (o : UAVObjects)
  : PathSegmentDescriptorData :=
  PathSegmentDescriptorInstGet o
    (wrap (ActiveSegment_bits P) (ActiveSegment (pathManagerStatus st) + 1))
    (pathSegmentDescriptor_current st).

Definition past_descriptor
    (st : ManagerState) (o : UAVObjects) (past0 : PathSegmentDescriptorData)
  : PathSegmentDescriptorData :=
  PathSegmentDescriptorInstGet o (ActiveSegment (pathManagerStatus st)) past0.

(** The arc center search that an advance from [st] performs when the
    loaded descriptor is curved. *)
Definition center_search
    (st : ManagerState) (o : UAVObjects) (past0 : PathSegmentDescriptorData)
  : arc_center_results * NE :=
  let cur := loaded_descriptor st o in
  find_arc_center L (SwitchingLocus (past_descriptor st o past0))
    (SwitchingLocus cur)
    (F32.div (F32.of_int 1) (PathCurvature cur))
    (F32.gt (PathCurvature cur) F32.zero)
    (ArcRank_is_minor (ArcRank cur))
    (arcCenter_NE st).

(** Advances in succession, each with the objects, the tick count and the
    content of the uninitialised local that it finds. *)
Fixpoint advances
    (st : ManagerState)
    (ins : list (UAVObjects * Z * PathSegmentDescriptorData))
  : ManagerState :=
  match ins with
  | [] => st
  | (o, now, past0) :: rest =>
      advances (fst (advanceSegment st o now past0)) rest
  end.

(** *** [checkGoalCondition] *)

(** The instance read for the look-ahead exists by the test that guards
    the read, so what the local held before is never seen; the current
    descriptor stands for it. *)
Definition checkGoalCondition (st : ManagerState) (o : UAVObjects) : bool :=
  match SwitchingStrategy (pathManagerSettings st) with
  | SWITCHINGSTRATEGY_HALFPLANE =>
      (* Check if there is a switching locus after the present one *)
      if ActiveSegment (pathManagerStatus st) + 1 <? UAVObjGetNumInstances o
      then
        let pathSegmentDescriptor_future :=
          PathSegmentDescriptorInstGet o
            (ActiveSegment (pathManagerStatus st) + 1)
            (pathSegmentDescriptor_current st) in
        half_plane_goal_test L (PositionActual o)
          (angularDistanceCompleted_D st) (angularDistanceToComplete_D st)
          (Position (previousLocus st))
          (pathSegmentDescriptor_current st) pathSegmentDescriptor_future
          (HalfPlaneAdvanceTiming (pathManagerSettings st))
          (BestClimbRateSpeed (fixedWingAirspeeds st))
      else false
  | SWITCHINGSTRATEGY_BBALL =>
      b_ball_goal_test L (PositionActual o)
        (SwitchingLocus (pathSegmentDescriptor_current st))
        (BBallThresholdDistance (pathManagerSettings st))
  | SWITCHINGSTRATEGY_OTHER => false
  end.

(** *** [checkOvershoot] *)

(** The vector [q] from the previous locus to the switching locus. *)
Definition overshoot_q (st : ManagerState) : NED :=
  let c := SwitchingLocus (pathSegmentDescriptor_current st) in
  let r := Position (previousLocus st) in
  mkNED (F32.sub (North c) (North r)) (F32.sub (East c) (East r))
    (F32.of_int 0).

(** The switching locus moved along [q] by five seconds of flight. *)
Definition overshoot_target (st : ManagerState) : NE :=
  let c := SwitchingLocus (pathSegmentDescriptor_current st) in
  let q := overshoot_q st in
  let q_mag := VectorMagnitude L q in
  let extend ci qi :=
    F32.add ci
      (F32.mul
         (F32.mul (F32.div qi q_mag)
            (BestClimbRateSpeed (fixedWingAirspeeds st)))
         (F32.of_int 5)) in
  mkNE (extend (North c) (North q)) (extend (East c) (East q)).

Definition overshoot_dot (st : ManagerState) (p : NE) : float :=
  let c := overshoot_target st in
  let q := overshoot_q st in
  F32.add (F32.mul (F32.sub (North2 p) (North2 c)) (North q))
          (F32.mul (F32.sub (East2 p) (East2 c)) (East q)).

Definition with_status
    (v : PathManagerStatusData) (st : ManagerState) : ManagerState :=
  mkState (fixedWingAirspeeds st) (pathManagerSettings st) v
    (pathSegmentDescriptor_current st) (segmentTimer st)
    (angularDistanceToComplete_D st) (angularDistanceCompleted_D st)
    (oldPosition_NE st) (arcCenter_NE st) (guidanceType st)
    (arc_has_center st) (previousLocus st) (pathplanner_active st)
    (lastSysTime st) (overshootTimer st) (theta_roundoff_trim_count st).

Definition checkOvershoot
    (st : ManagerState) (o : UAVObjects) : ManagerState * UAVObjects :=
  if F32.eq (PathCurvature (pathSegmentDescriptor_current st)) F32.zero
  then
    if F32.gt (overshoot_dot st (PositionActual o)) F32.zero then
      let status1 := set_Status STATUS_OVERSHOOT (pathManagerStatus st) in
      (with_status status1 st,
       AlarmsSet_PathManager ALARM_CRITICAL
         (PathManagerStatusSet status1 o))
    else (st, o)
  else (st, o).

(** *** [settingsUpdated] *)

Inductive SettingsEvent : Type :=
  | EV_NULL | EV_PathManagerSettings | EV_FixedWingAirspeeds | EV_other.

Definition settingsUpdated
    (ev : SettingsEvent) (o : UAVObjects) (st : ManagerState)
  : ManagerState :=
  let settings :=
    match ev with
    | EV_NULL | EV_PathManagerSettings => PathManagerSettings o
    | _ => pathManagerSettings st
    end in
  let airspeeds :=
    match ev with
    | EV_NULL | EV_FixedWingAirspeeds => FixedWingAirspeeds o
    | _ => fixedWingAirspeeds st
    end in
  mkState airspeeds settings (pathManagerStatus st)
    (pathSegmentDescriptor_current st) (segmentTimer st)
    (angularDistanceToComplete_D st) (angularDistanceCompleted_D st)
    (oldPosition_NE st) (arcCenter_NE st) (guidanceType st)
    (arc_has_center st) (previousLocus st) (pathplanner_active st)
    (lastSysTime st) (overshootTimer st) (theta_roundoff_trim_count st).

(** *** [pathManagerTask]: one iteration of the main loop *)

(** Which parts of the iteration ran. *)
Record Trace : Type := mkTrace {
  idle : bool;
  arc_measured : bool;
  roundoff_corrected : bool;
  goal_checked : bool;
  advanced : bool;
  timeout_flagged : bool;
  overshoot_checked : bool
}.

Definition idle_trace : Trace :=
  mkTrace true false false false false false false.

(** The head of the loop: the guidance type, [pathplanner_active] and the
    objects after a program was possibly loaded, or [None] where the loop
    short-circuits with [continue]. *)
Definition select_guidance (st : ManagerState) (o : UAVObjects)
  : option (guidanceTypes * bool * UAVObjects) :=
  let keep := Some (guidanceType st, pathplanner_active st, o) in
  if PATH_PLANNER P then
    match PathPlannerStatus_PathAvailability o with
    | PATHAVAILABILITY_PATHREADY =>
        if negb (guidanceTypes_eqb (guidanceType st) PATHPLANNER)
        then Some (PATHPLANNER, false, o) else keep
    | PATHAVAILABILITY_OTHER => None
    end
  else
    match FlightStatus_FlightMode o with
    | FLIGHTMODE_RETURNTOHOME =>
        if negb (guidanceTypes_eqb (guidanceType st) RETURNHOME)
        then Some (RETURNHOME, false, simple_return_to_home L o) else keep
    | FLIGHTMODE_POSITIONHOLD =>
        if negb (guidanceTypes_eqb (guidanceType st) HOLDPOSITION)
        then Some (HOLDPOSITION, false, simple_hold_position L o) else keep
    | FLIGHTMODE_PATHPLANNER =>
        if negb (guidanceTypes_eqb (guidanceType st) PATHPLANNER)
        then Some (PATHPLANNER, false, example_program L o) else keep
    | FLIGHTMODE_OTHER => None
    end.

(** Guidance type [g] stays selected with the objects [o]: the head of the
    loop neither short-circuits nor loads a program. *)
Definition engaged (g : guidanceTypes) (o : UAVObjects) : bool :=
  if PATH_PLANNER P then
    match PathPlannerStatus_PathAvailability o with
    | PATHAVAILABILITY_PATHREADY => guidanceTypes_eqb g PATHPLANNER
    | PATHAVAILABILITY_OTHER => false
    end
  else
    match FlightStatus_FlightMode o with
    | FLIGHTMODE_RETURNTOHOME => guidanceTypes_eqb g RETURNHOME
    | FLIGHTMODE_POSITIONHOLD => guidanceTypes_eqb g HOLDPOSITION
    | FLIGHTMODE_PATHPLANNER => guidanceTypes_eqb g PATHPLANNER
    | FLIGHTMODE_OTHER => false
    end.

(** Update of the arc measure traveled: the new [angularDistanceCompleted_D],
    [oldPosition_NE] and [theta_roundoff_trim_count], whether the arc was
    measured and whether the roundoff correction ran. *)
Definition update_arc_measure (st : ManagerState) (o : UAVObjects)
  : float * NE * Z * bool * bool :=
  let unchanged :=
    (angularDistanceCompleted_D st, oldPosition_NE st,
     theta_roundoff_trim_count st, false, false) in
  if F32.ne (PathCurvature (pathSegmentDescriptor_current st)) F32.zero then
    let newPosition_NE := PositionActual o in
    match arc_has_center st with
    | CENTER_FOUND =>
        let completed1 :=
          F32.add (angularDistanceCompleted_D st)
            (F32.mul
               (measure_arc_rad L (oldPosition_NE st) newPosition_NE
                  (arcCenter_NE st))
               (RAD2DEG P)) in
        if Z.land (theta_roundoff_trim_count st) 143 =? 0 then
          let referenceTheta_D :=
            F32.mul
              (measure_arc_rad L (NE_of_NED (Position (previousLocus st)))
                 newPosition_NE (arcCenter_NE st))
              (RAD2DEG P) in
          let error_D :=
            circular_modulus_deg L (F32.sub referenceTheta_D completed1) in
          (F32.add completed1 error_D, newPosition_NE, 0, true, true)
        else
          (completed1, newPosition_NE,
           wrap 8 (theta_roundoff_trim_count st + 1), true, false)
    | _ => unchanged
    end
  else unchanged.

(** The test that lets [checkGoalCondition] run. *)
Definition sufficiently_close (st : ManagerState) : bool :=
  F32.lt
    (F32.mul
       (F32.of_int (SIGN L (PathCurvature (pathSegmentDescriptor_current st))))
       (F32.sub (angularDistanceToComplete_D st)
          (angularDistanceCompleted_D st)))
    (F32.of_int ANGULAR_PROXIMITY_THRESHOLD).

Definition segment_timed_out (st : ManagerState) : bool :=
  wrap (portTickType_bits P) (Timeout (pathManagerStatus st) * 1000
                              * portTICK_RATE_MS P)
  <? wrap (portTickType_bits P) (lastSysTime st - segmentTimer st).

Definition overshoot_check_due (st : ManagerState) : bool :=
  wrap (portTickType_bits P) (OVERSHOOT_TIMER_MS * portTICK_RATE_MS P)
  <? wrap (portTickType_bits P) (lastSysTime st - overshootTimer st).

Definition with_overshootTimer (v : Z) (st : ManagerState) : ManagerState :=
  mkState (fixedWingAirspeeds st) (pathManagerSettings st)
    (pathManagerStatus st) (pathSegmentDescriptor_current st)
    (segmentTimer st) (angularDistanceToComplete_D st)
    (angularDistanceCompleted_D st) (oldPosition_NE st) (arcCenter_NE st)
    (guidanceType st) (arc_has_center st) (previousLocus st)
    (pathplanner_active st) (lastSysTime st) v
    (theta_roundoff_trim_count st).

(** The path manager was just activated. *)
Definition activate (st : ManagerState) (o : UAVObjects) (now : Z)
  : ManagerState * UAVObjects :=
  let status1 :=
    set_Status STATUS_INPROGRESS
      (set_PathCounter
         (wrap (PathCounter_bits P) (PathCounter (pathManagerStatus st) + 1))
         (set_ActiveSegment 0 (pathManagerStatus st))) in
  (mkState (fixedWingAirspeeds st) (pathManagerSettings st) status1
     (pathSegmentDescriptor_current st) now
     (angularDistanceToComplete_D st) (angularDistanceCompleted_D st)
     (oldPosition_NE st) (arcCenter_NE st) (guidanceType st)
     (arc_has_center st) (previousLocus st) true
     (lastSysTime st) (overshootTimer st) (theta_roundoff_trim_count st),
   PathManagerStatusSet status1 o).

(** The tail of the iteration: advance, or else flag a timeout, or else
    check for overshoot. The three booleans tell which of the branches was
    taken. *)
Definition supervise
    (st : ManagerState) (o : UAVObjects) (advanceSegment_flag : bool)
    (inp : TickInput) : ManagerState * UAVObjects * (bool * bool * bool) :=
  if advanceSegment_flag then
    let '(st', o') :=
      advanceSegment st o (tickCount inp) (uninitialized_past inp) in
    (st', o', (true, false, false))
  else if segment_timed_out st then
    let status1 := set_Status STATUS_TIMEDOUT (pathManagerStatus st) in
    (with_status status1 st, PathManagerStatusSet status1 o,
     (false, true, false))
  else if overshoot_check_due st then
    let '(st', o') := checkOvershoot st o in
    (with_overshootTimer (lastSysTime st') st', o', (false, false, true))
  else (st, o, (false, false, false)).

(** The iteration up to the decision to advance: [None] where the loop
    short-circuits, else the state, the objects, [advanceSegment_flag], and
    whether the arc was measured, the roundoff corrected and the goal
    condition checked. *)
Definition loop_head (st : ManagerState) (inp : TickInput)
  : option (ManagerState * UAVObjects * bool * (bool * bool * bool)) :=
  let lastSysTime1 :=
    wrap (portTickType_bits P)
      (lastSysTime st + UPDATE_RATE_MS * portTICK_RATE_MS P) in
  match select_guidance st (objects inp) with
  | None => None
  | Some (gtype, active, o) =>
      (* Update arc measure traveled *)
      let '(completed, oldPos, count, measured, corrected) :=
        update_arc_measure st o in
      let st1 :=
        mkState (fixedWingAirspeeds st) (pathManagerSettings st)
          (pathManagerStatus st) (pathSegmentDescriptor_current st)
          (segmentTimer st) (angularDistanceToComplete_D st) completed
          oldPos (arcCenter_NE st) gtype (arc_has_center st)
          (previousLocus st) active lastSysTime1 (overshootTimer st)
          count in
      (* If sufficiently close to the goal, check the goal condition *)
      let close := sufficiently_close st1 in
      let flag0 := if close then checkGoalCondition st1 o else false in
      (* Check if the path manager was just activated *)
      if negb active then
        let '(st2, o2) := activate st1 o (tickCount inp) in
        Some (st2, o2, true, (measured, corrected, close))
      else Some (st1, o, flag0, (measured, corrected, close))
  end.

(** The state the short-circuit leaves. *)
Definition loop_idle (st : ManagerState) : ManagerState :=
  mkState (fixedWingAirspeeds st) (pathManagerSettings st)
    (pathManagerStatus st) (pathSegmentDescriptor_current st)
    (segmentTimer st) (angularDistanceToComplete_D st)
    (angularDistanceCompleted_D st) (oldPosition_NE st)
    (arcCenter_NE st) NOMANAGER (arc_has_center st) (previousLocus st)
    false
    (wrap (portTickType_bits P)
       (lastSysTime st + UPDATE_RATE_MS * portTICK_RATE_MS P))
    (overshootTimer st) (theta_roundoff_trim_count st).

Definition loop_body (st : ManagerState) (inp : TickInput)
  : ManagerState * UAVObjects * Trace :=
  match loop_head st inp with
  | None => (loop_idle st, objects inp, idle_trace)
  | Some (st2, o2, advanceSegment_flag, (measured, corrected, close)) =>
      let '(st3, o3, (adv, tmo, ovs)) :=
        supervise st2 o2 advanceSegment_flag inp in
      (st3, o3, mkTrace false measured corrected close adv tmo ovs)
  end.

(** What an iteration that does not advance leaves as it was. *)
Definition same_segment (st st' : ManagerState) : Prop :=
  pathSegmentDescriptor_current st' = pathSegmentDescriptor_current st
  /\ angularDistanceToComplete_D st' = angularDistanceToComplete_D st
  /\ arc_has_center st' = arc_has_center st
  /\ previousLocus st' = previousLocus st
  /\ pathManagerSettings st' = pathManagerSettings st
  /\ fixedWingAirspeeds st' = fixedWingAirspeeds st.

(** On a straight current segment both angular distances are zero. *)
Definition straight_at_zero (st : ManagerState) : Prop :=
  F32.eq (PathCurvature (pathSegmentDescriptor_current st)) F32.zero = true ->
  angularDistanceToComplete_D st = F32.zero
  /\ angularDistanceCompleted_D st = F32.zero.

(** The current segment is an arc whose center was not resolved, and both
    angular distances are zero. *)
Definition unresolved_arc (st : ManagerState) : Prop :=
  F32.ne (PathCurvature (pathSegmentDescriptor_current st)) F32.zero = true
  /\ arc_has_center st <> CENTER_FOUND
  /\ angularDistanceToComplete_D st = F32.zero
  /\ angularDistanceCompleted_D st = F32.zero.

(** A run of the loop over the inputs of successive iterations: the final
    state and the traces, oldest first. *)
Fixpoint run (st : ManagerState) (inputs : list TickInput)
  : ManagerState * list Trace :=
  match inputs with
  | [] => (st, [])
  | inp :: rest =>
      let '(st1, _, tr) := loop_body st inp in
      let '(st2, trs) := run st1 rest in
      (st2, tr :: trs)
  end.

(** The state in which the loop is entered: statics as the C start-up code
    and [PathManagerInitialize] leave them, settings loaded by
    [settingsUpdated(NULL)], both timers at the current tick count. *)
Definition zero_NED : NED := mkNED F32.zero F32.zero F32.zero.
Definition zero_NE : NE := mkNE F32.zero F32.zero.

Definition initial_state (o : UAVObjects) (now : Z) : ManagerState :=
  settingsUpdated EV_NULL o
    (mkState (mkAirspeeds F32.zero)
       (mkSettings SWITCHINGSTRATEGY_HALFPLANE F32.zero F32.zero)
       (mkStatus 0 0 STATUS_INPROGRESS 0)
       (mkDescriptor zero_NED F32.zero F32.zero 0 ARCRANK_MINOR)
       0 F32.zero F32.zero zero_NE zero_NE NOMANAGER INSUFFICIENT_RADIUS
       (mkPreviousLocus zero_NED F32.zero) false now now 0).

End PathManager.

(** How many of the three branches of the tail an iteration took. *)
Definition branches_taken (tr : Trace) : nat :=
  (if advanced tr then 1 else 0) + (if timeout_flagged tr then 1 else 0)
  + (if overshoot_checked tr then 1 else 0).

(** How many of the three the iteration evaluated, counting the timeout
    test as evaluated whenever the iteration does not advance: it is the
    condition of the first [else if]. *)
Definition tests_made (tr : Trace) : nat :=
  (if advanced tr then 1 else 0)
  + (if idle tr || advanced tr then 0 else 1)
  + (if overshoot_checked tr then 1 else 0).

(** The states the task can be in: the state at loop entry, and what
    iterations of the loop and settings callbacks make of it, whatever the
    other tasks put in the objects. *)
Inductive reachable (P : Platform) (L : Library) : ManagerState -> Prop :=
  | reach_initial (o : UAVObjects) (now : Z) :
      reachable P L (initial_state o now)
  | reach_iteration (st : ManagerState) (inp : TickInput) :
      reachable P L st ->
      reachable P L (fst (fst (loop_body P L st inp)))
  | reach_settings (st : ManagerState) (ev : SettingsEvent) (o : UAVObjects) :
      reachable P L st ->
      reachable P L (settingsUpdated ev o st).

(** The iterations of a run, counted from 0, on which the roundoff
    correction ran, and the distances between consecutive ones. *)
Fixpoint correction_ticks (n : nat) (trs : list Trace) : list nat :=
  match trs with
  | [] => []
  | tr :: rest =>
      if roundoff_corrected tr then n :: correction_ticks (S n) rest
      else correction_ticks (S n) rest
  end.

Fixpoint gaps (ticks : list nat) : list nat :=
  match ticks with
  | a :: ((b :: _) as rest) => (b - a)%nat :: gaps rest
  | _ => []
  end.

(** ** A concrete platform and library

    Stand-ins on which the module can be run: the constants of a 32-bit
    port with one tick per millisecond, and the library functions that the
    straight-line scenarios reach. *)

Module Reference.

Definition PI : float := S754_finite false 13176795 (-22).

Definition platform : Platform :=
  mkPlatform true 1 32 16 8
    (F32.div (F32.of_int 180) PI) (F32.div PI (F32.of_int 180))
    (fun _ => 0).

(** Modelled from the spec: the sign of the curvature, that is the turn
    direction; the macro [SIGN] is defined in a header outside the module.
    Zero is given the sign of the positive numbers. *)
Definition SIGN (x : float) : Z := if F32.lt x F32.zero then -1 else 1.

(** Modelled from the spec: the clamp to [[lo, hi]] of the timeout law;
    [bound_min_max] is defined in the math library. *)
Definition bound_min_max (val lo hi : float) : float :=
  if F32.lt val lo then lo else if F32.gt val hi then hi else val.

(** Modelled from the spec: the length of a vector, that divides the path
    vector into the unit direction vector; [VectorMagnitude] is defined in
    the coordinate conversion library. *)
Definition VectorMagnitude (v : NED) : float :=
  F32.sqrtf
    (F32.add
       (F32.add (F32.mul (North v) (North v)) (F32.mul (East v) (East v)))
       (F32.mul (Down v) (Down v))).

(** Modelled from the spec: the proximity-ball test, reached at a distance
    to the end locus up to and including the threshold; [b_ball_goal_test]
    is defined in the path managers library. *)
Definition b_ball_goal_test
    (position_NE : NE) (swl : NED) (threshold : float) : bool :=
  F32.le
    (VectorMagnitude
       (mkNED (F32.sub (North2 position_NE) (North swl))
              (F32.sub (East2 position_NE) (East swl)) F32.zero))
    threshold.

(** The arc functions are given fixed answers: no center is ever found. *)
Definition library : Library :=
  mkLibrary SIGN
    (fun _ _ _ _ _ center => (INSUFFICIENT_RADIUS, center))
    (fun _ _ _ => F32.zero)
    (fun x => x)
    (fun _ _ _ _ _ _ _ _ => false)
    b_ball_goal_test bound_min_max VectorMagnitude
    (fun o => o) (fun o => o) (fun o => o).

(** A library whose arcs all resolve, about the given center and with the
    given measure. *)
Definition arc_library (center : NE) (measure : float) : Library :=
  mkLibrary SIGN
    (fun _ _ _ _ _ _ => (CENTER_FOUND, center))
    (fun _ _ _ => measure)
    (fun x => x)
    (fun _ _ _ _ _ _ _ _ => false)
    b_ball_goal_test bound_min_max VectorMagnitude
    (fun o => o) (fun o => o) (fun o => o).

Definition fl (z : Z) : float := F32.of_int z.

Definition point (n e : Z) : NED := mkNED (fl n) (fl e) F32.zero.

(** A straight segment ending at [(n, e)] with final velocity [v]. *)
Definition line_to (n e v : Z) : PathSegmentDescriptorData :=
  mkDescriptor (point n e) (fl v) F32.zero 0 ARCRANK_MINOR.

(** An arc ending at [(n, e)] with curvature [1 / r]. *)
Definition arc_to (n e v r orbits : Z) : PathSegmentDescriptorData :=
  mkDescriptor (point n e) (fl v) (F32.div (fl 1) (fl r)) orbits
    ARCRANK_MINOR.

Definition objects_at
    (program : list PathSegmentDescriptorData) (n e : Z)
    (strategy : SwitchingStrategyOptions) : UAVObjects :=
  mkObjects program (mkNE (fl n) (fl e)) FLIGHTMODE_PATHPLANNER
    PATHAVAILABILITY_PATHREADY
    (mkSettings strategy F32.zero (fl 1)) (mkAirspeeds (fl 10))
    (mkStatus 0 0 STATUS_INPROGRESS 0) ALARM_CLEAR.

Definition input_at
    (program : list PathSegmentDescriptorData) (n e : Z)
    (strategy : SwitchingStrategyOptions) (now : Z) : TickInput :=
  mkInput (objects_at program n e strategy) now (line_to 0 0 0).

(** The single-segment program: a line from (0,0) to (100,0) flown at 10. *)
Definition single_line : list PathSegmentDescriptorData :=
  [line_to 0 0 10; line_to 100 0 10].

(** The scenario of the single-segment program under the proximity-ball
    strategy: activation away from the goal, then two iterations with the
    vehicle on the end locus (100,0). *)
Definition bball_input (n e now : Z) : TickInput :=
  input_at single_line n e SWITCHINGSTRATEGY_BBALL now.

Definition entry_state : ManagerState :=
  initial_state (objects (bball_input 0 0 0)) 0.

Definition after_activation : ManagerState * UAVObjects * Trace :=
  loop_body platform library entry_state (bball_input 0 0 100).

Definition at_goal : ManagerState * UAVObjects * Trace :=
  loop_body platform library (fst (fst after_activation))
    (bball_input 100 0 200).

Definition at_goal_again : ManagerState * UAVObjects * Trace :=
  loop_body platform library (fst (fst at_goal)) (bball_input 100 0 300).

(** The same program under the half-plane strategy. *)
Definition halfplane_input (n e now : Z) : TickInput :=
  input_at single_line n e SWITCHINGSTRATEGY_HALFPLANE now.

Definition on_final_segment : ManagerState :=
  fst (fst (loop_body platform library
              (initial_state (objects (halfplane_input 0 0 0)) 0)
              (halfplane_input 0 0 100))).

(** Nine further iterations on the final segment, 100 ticks apart, which
    bring the overshoot timer past one second. *)
Definition quiet_inputs : list TickInput :=
  map (fun k => halfplane_input 0 0 (100 * k)) [2; 3; 4; 5; 6; 7; 8; 9; 10].

Definition overshoot_check_pending : ManagerState :=
  fst (run platform library on_final_segment quiet_inputs).

(** A program with one arc, flown with the library whose arcs resolve:
    every measure of the arc is one radian. *)
Definition arc_program : list PathSegmentDescriptorData :=
  [line_to 0 0 10; arc_to 100 100 10 100 0].

Definition resolving_library : Library :=
  arc_library (mkNE (fl 0) (fl 100)) (fl 1).

Definition arc_input (n e now : Z) : TickInput :=
  mkInput (objects_at arc_program n e SWITCHINGSTRATEGY_HALFPLANE) now
    (line_to 0 0 0).

Definition arc_entry : ManagerState :=
  initial_state (objects (arc_input 0 0 0)) 0.

Definition on_arc : ManagerState :=
  fst (fst (loop_body platform resolving_library arc_entry
              (arc_input 0 0 100))).

(** The library whose arcs resolve with a measure of minus one radian,
    against the turn direction of the one-arc program. *)
Definition wrapping_library : Library :=
  arc_library (mkNE (fl 0) (fl 100)) (fl (-1)).

(** A program whose arc has a chord of 300 for a radius of 100, flown
    under the proximity-ball strategy with the library that finds no
    center; the vehicle stays at the start. *)
Definition wide_arc_program : list PathSegmentDescriptorData :=
  [line_to 0 0 10; arc_to 300 0 10 100 0].

Definition wide_arc_input (now : Z) : TickInput :=
  mkInput (objects_at wide_arc_program 0 0 SWITCHINGSTRATEGY_BBALL) now
    (line_to 0 0 0).

Definition on_wide_arc : ManagerState :=
  fst (fst (loop_body platform library
              (initial_state (objects (wide_arc_input 0)) 0)
              (wide_arc_input 100))).

(** A program whose only segment has final velocity zero. *)
Definition halted_line : list PathSegmentDescriptorData :=
  [line_to 0 0 0; line_to 100 0 0].

(** A line flown from (200,0) back to (100,0), and the state one
    iteration after its activation. *)
Definition return_line : list PathSegmentDescriptorData :=
  [line_to 200 0 10; line_to 100 0 10].

Definition returning : ManagerState :=
  fst (fst (loop_body platform library
              (initial_state
                 (objects_at return_line 200 0 SWITCHINGSTRATEGY_BBALL) 0)
              (input_at return_line 200 0 SWITCHINGSTRATEGY_BBALL 100))).

(** Iterations of the single-segment program with the vehicle on the end
    locus (100,0), 100 ticks apart, and the state that 65534 of them make
    of the state after the activation. *)
Definition overrun_inputs (n : nat) : list TickInput :=
  map (fun k => bball_input 100 0 (100 * Z.of_nat k)) (seq 2 n).

Definition at_top_of_field : ManagerState :=
  fst (run platform library (fst (fst after_activation))
         (overrun_inputs (Z.to_nat 65534))).

End Reference.

(** The single-segment program under the proximity-ball strategy once the
    index has reached or passed the last instance: the path manager is
    active, and the current descriptor is the stale one of segment 1. *)
Definition overrunning (st : ManagerState) : Prop :=
  pathplanner_active st = true
  /\ guidanceType st = PATHPLANNER
  /\ pathSegmentDescriptor_current st = Reference.line_to 100 0 10
  /\ pathManagerSettings st
     = mkSettings SWITCHINGSTRATEGY_BBALL F32.zero (Reference.fl 1)
  /\ 1 <= ActiveSegment (pathManagerStatus st) < 2 ^ 16.

(** ** Further definitions for the properties of the loop *)

(** The objects agree on everything the module only reads. *)
Definition same_inputs (o o' : UAVObjects) : Prop :=
  PathSegmentDescriptor o' = PathSegmentDescriptor o
  /\ PositionActual o' = PositionActual o
  /\ FlightStatus_FlightMode o' = FlightStatus_FlightMode o
  /\ PathPlannerStatus_PathAvailability o'
     = PathPlannerStatus_PathAvailability o
  /\ PathManagerSettings o' = PathManagerSettings o
  /\ FixedWingAirspeeds o' = FixedWingAirspeeds o.

(** Neither an infinity nor a NaN. *)
Definition is_finite (x : float) : bool :=
  match x with
  | S754_zero _ | S754_finite _ _ _ => true
  | S754_infinity _ | S754_nan => false
  end.

(** The objects with other settings. *)
Definition with_settings_objects
    (s : PathManagerSettingsData) (a : FixedWingAirspeedsData)
    (o : UAVObjects) : UAVObjects :=
  mkObjects (PathSegmentDescriptor o) (PositionActual o)
    (FlightStatus_FlightMode o) (PathPlannerStatus_PathAvailability o)
    s a (PathManagerStatus o) (Alarm_PathManager o).

(** The input of an iteration with other settings in the objects. *)
Definition with_settings_input
    (s : PathManagerSettingsData) (a : FixedWingAirspeedsData)
    (inp : TickInput) : TickInput :=
  mkInput (with_settings_objects s a (objects inp)) (tickCount inp)
    (uninitialized_past inp).

(** ** Start of the module

    [PathManagerInitialize] and [PathManagerStart], and the wait for the
    path follower at the head of [pathManagerTask]. *)

Inductive AdminStateOptions : Type := ADMINSTATE_DISABLED | ADMINSTATE_ENABLED.

(** The statics the two functions set, and what they create: whether the
    task exists and is registered with the task monitor, whether the
    objects were initialised and the queue created, and the block that
    [previousLocus] points to, if any. *)
Record StartupStatics : Type := mkStartup {
  module_enabled : bool;
  taskHandle : bool;
  task_monitored : bool;
  objects_initialized : bool;
  queue_created : bool;
  previousLocus_block : option PreviousLocus
}.

(** The statics as the C start-up code leaves them. *)
Definition startup_zero : StartupStatics :=
  mkStartup false false false false false None.

(** [PathManagerInitialize]. [builtin] tells whether
    [MODULE_PathManager_BUILTIN] is defined, [admin] is the entry of the
    module in [ModuleSettings.AdminState], [allocated] whether
    [pvPortMalloc] returns a block. Without a block the [memset] writes
    through a null pointer, which C leaves undefined: there is no result. *)
Definition PathManagerInitialize
    (builtin : bool) (admin : AdminStateOptions) (allocated : bool)
    (s : StartupStatics) : option (Z * StartupStatics) :=
  let enabled :=
    if builtin then true
    else match admin with
         | ADMINSTATE_ENABLED => true
         | ADMINSTATE_DISABLED => false
         end in
  if enabled then
    if allocated then
      Some (0, mkStartup true false (task_monitored s) true true
                 (Some (mkPreviousLocus zero_NED F32.zero)))
    else None
  else
    Some (-1, mkStartup false false (task_monitored s)
                (objects_initialized s) (queue_created s)
                (previousLocus_block s)).

(** [PathManagerStart]. [created] tells whether [xTaskCreate] made the
    task; its result is not looked at. *)
Definition PathManagerStart (created : bool) (s : StartupStatics)
  : Z * StartupStatics :=
  if module_enabled s then
    (0, mkStartup (module_enabled s) created true (objects_initialized s)
          (queue_created s) (previousLocus_block s))
  else (-1, s).

(** The wait at the head of [pathManagerTask], over the answers of
    [TaskMonitorQueryRunning] to the successive polls: whether the loop
    was left, the objects, and the number of delays of 1000 ticks. *)
Fixpoint await_follower (polls : list bool) (o : UAVObjects)
  : bool * UAVObjects * nat :=
  match polls with
  | [] => (false, o, 0%nat)
  | true :: _ => (true, AlarmsSet_PathManager ALARM_CLEAR o, 0%nat)
  | false :: rest =>
      let '(entered, o', delays) :=
        await_follower rest (AlarmsSet_PathManager ALARM_CRITICAL o) in
      (entered, o', S delays)
  end.

(** The polls answered with "not running" before the first other answer. *)
Fixpoint leading_false (polls : list bool) : nat :=
  match polls with
  | false :: rest => S (leading_false rest)
  | _ => 0%nat
  end.

(** ** Attitude estimation: the accelerometer samples

    The part of [updateSensors] of [CCAttitude/ccattitude.c] that drains
    the accelerometer. C [double] values are binary64 numbers. *)

Module F64.

Definition prec : Z := 53.
Definition emax : Z := 1024.

Definition add : spec_float -> spec_float -> spec_float := SFadd prec emax.
Definition mul : spec_float -> spec_float -> spec_float := SFmul prec emax.

(** Conversion of a [float] to [double], which is exact. *)
Definition of_single (x : float) : spec_float :=
  match x with
  | S754_finite s m e => binary_round prec emax s m e
  | _ => x
  end.

(** Conversion of a [double] to [float], round to nearest even. *)
Definition to_single (x : spec_float) : float :=
  match x with
  | S754_finite s m e => binary_round F32.prec F32.emax s m e
  | _ => x
  end.

End F64.

(** [struct pios_adxl345_data], three signed 16-bit readings. *)
Record pios_adxl345_data : Type := mkAdxl345 {
  adxl345_x : Z;
  adxl345_y : Z;
  adxl345_z : Z
}.

(** The constants [0.004f] and [9.81]. *)
Definition accel_scale : float := S754_finite false 8589935 (-31).
Definition gravity : spec_float := S754_finite false 5522539043063071 (-49).

(** [acc += t * 0.004f * 9.81] for a [float] accumulator and a [float]
    [t]: the first product is single, the second and the sum are double,
    and the sum is stored as single. *)
Definition accumulate (acc t : float) : float :=
  F64.to_single
    (F64.add (F64.of_single acc)
       (F64.mul (F64.of_single (F32.mul t accel_scale)) gravity)).

Record AccelSums : Type := mkSums {
  sum_x : float;
  sum_y : float;
  sum_z : float
}.

Definition add_sample (acc : AccelSums) (d : pios_adxl345_data)
  : AccelSums :=
  mkSums (accumulate (sum_x acc) (F32.of_int (adxl345_x d)))
         (accumulate (sum_y acc) (SFopp (F32.of_int (adxl345_y d))))
         (accumulate (sum_z acc) (SFopp (F32.of_int (adxl345_z d)))).

(** The [do ... while] loop. [reads k] is what the call number [k] of
    [PIOS_ADXL345_Read], counted from 0, returns and stores in
    [accel_data]; [i] is the counter before the [i++]. The result is the
    counter, the last return value, the last sample and the sums. The loop
    runs at most 32 times; [fuel] bounds the recursion. *)
Fixpoint drain_accels
    (fuel : nat) (reads : nat -> Z * pios_adxl345_data)
    (i : nat) (acc : AccelSums)
  : nat * Z * pios_adxl345_data * AccelSums :=
  let '(remaining, d) := reads i in
  let acc' := add_sample acc d in
  if (Z.of_nat (S i) <? 32) && (0 <? remaining) then
    match fuel with
    | O => (S i, remaining, d, acc')
    | S fuel' => drain_accels fuel' reads (S i) acc'
    end
  else (S i, remaining, d, acc').

(** What [updateSensors] stores of the accelerometer: [gyrotemp[0]],
    [accels_filtered] and [accels]; and the number of reads. *)
Record AccelUpdate : Type := mkAccelUpdate {
  gyrotemp_0 : Z;
  accels_filtered : AccelSums;
  accels : pios_adxl345_data;
  reads_made : nat
}.

Definition update_accels (reads : nat -> Z * pios_adxl345_data)
  : AccelUpdate :=
  let '(i, remaining, d, acc) :=
    drain_accels 31 reads 0 (mkSums F32.zero F32.zero F32.zero) in
  let n := F32.of_int (Z.of_nat i) in
  mkAccelUpdate remaining
    (mkSums (F32.div (sum_x acc) n) (F32.div (sum_y acc) n)
       (F32.div (sum_z acc) n))
    d i.

(** ** Further scenarios *)

Module Scenarios.

Import Reference.

(** The objects of the single-segment program with the path not ready. *)
Definition not_ready_input (now : Z) : TickInput :=
  mkInput
    (mkObjects single_line (mkNE (fl 0) (fl 0)) FLIGHTMODE_OTHER
       PATHAVAILABILITY_OTHER
       (mkSettings SWITCHINGSTRATEGY_BBALL F32.zero (fl 1))
       (mkAirspeeds (fl 10)) (mkStatus 0 0 STATUS_INPROGRESS 0) ALARM_CLEAR)
    now (line_to 0 0 0).

(** A platform without [PATH_PLANNER], where the flight mode selects the
    guidance and the program generators are called. *)
Definition small_platform : Platform :=
  mkPlatform false 1 32 16 8 (RAD2DEG platform) (DEG2RAD platform)
    (fun _ => 0).

(** A program that holds the position (50,50): a segment without length. *)
Definition hold_program : list PathSegmentDescriptorData :=
  [line_to 50 50 10; line_to 50 50 10].

Definition holding : ManagerState :=
  fst (fst (loop_body platform library
              (initial_state (objects_at hold_program 0 0
                                SWITCHINGSTRATEGY_HALFPLANE) 0)
              (input_at hold_program 0 0 SWITCHINGSTRATEGY_HALFPLANE 100))).

(** The final segment of the single-segment program, entered at a tick
    count 250 ticks after the wake-up time of the iteration. *)
Definition entered_late : ManagerState :=
  fst (fst (loop_body platform library
              (initial_state (objects (halfplane_input 0 0 0)) 0)
              (halfplane_input 0 0 350))).

(** The single-segment program with a strategy that is neither of the
    two. *)
Definition unknown_input (n e now : Z) : TickInput :=
  input_at single_line n e SWITCHINGSTRATEGY_OTHER now.

Definition on_unknown_strategy : ManagerState :=
  fst (fst (loop_body platform library
              (initial_state (objects (unknown_input 0 0 0)) 0)
              (unknown_input 0 0 100))).

(** A program of two lines. *)
Definition two_lines : list PathSegmentDescriptorData :=
  [line_to 0 0 10; line_to 100 0 10; line_to 100 100 10].

(** An accelerometer that reports two more samples, one more, then
    none. *)
Definition three_samples (k : nat) : Z * pios_adxl345_data :=
  (Z.of_nat (2 - k), mkAdxl345 256 (-3) 250).

End Scenarios.

(** ** Facts of single-precision arithmetic *)

Lemma digits2_pos_bound m : Zpos m < 2 ^ Zpos (digits2_pos m).
Proof.
  induction m as [m IH | m IH |]; cbn [digits2_pos].
  - rewrite Pos2Z.inj_succ, Z.pow_succ_r by lia. lia.
  - rewrite Pos2Z.inj_succ, Z.pow_succ_r by lia. lia.
  - reflexivity.
Qed.

Lemma valid_finite s m e :
  F32.valid (S754_finite s m e) = true ->
  Z.max (Zpos (digits2_pos m) + e - 24) (-149) = e /\ e <= 104.
Proof.
  unfold F32.valid, valid_binary, bounded, canonical_mantissa, fexp, emin,
    F32.prec, F32.emax.
  intros H. apply andb_true_iff in H. destruct H as [H1 H2].
  apply Z.eqb_eq in H1. apply Z.leb_le in H2.
  split; [exact H1 | exact H2].
Qed.

(** Multiplication by a unit [2^23 * 2^(-23)]: the product of the
    mantissas is shifted back by 23 bits with nothing lost. *)
Lemma mul_one_finite s1 s m e :
  F32.valid (S754_finite s m e) = true ->
  F32.mul (S754_finite s1 8388608 (-23)) (S754_finite s m e)
  = S754_finite (xorb s1 s) m e.
Proof.
  intros Hv. destruct (valid_finite s m e Hv) as [Hc He].
  unfold F32.mul, SFmul, binary_round_aux, shr_fexp.
  cbn [Pos.mul Zdigits2 digits2_pos].
  rewrite !Pos2Z.inj_succ.
  unfold fexp, emin, F32.prec, F32.emax.
  match goal with
  | |- context [shr _ (-23 + e) ?n] => replace n with 23 by lia
  end.
  cbn [shr shr_record_of_loc iter_pos shr_1 orb loc_of_shr_record
       round_nearest_even shr_m].
  replace (-23 + e + 23) with e by lia.
  cbn [Zdigits2].
  match goal with
  | |- context [shr _ e ?n] =>
      replace n with 0
        by (change (3 - 128 - 24) with (-149);
            change IntDef.Z.max with Z.max; lia)
  end.
  cbn [shr shr_m].
  replace (e <=? 128 - 24) with true by (symmetry; apply Z.leb_le; lia).
  reflexivity.
Qed.

Lemma mul_of_int_one x :
  F32.valid x = true -> F32.mul (F32.of_int 1) x = x.
Proof.
  change (F32.of_int 1) with (S754_finite false 8388608 (-23)).
  destruct x as [s|s| |s m e]; intros Hv; try reflexivity.
  apply (mul_one_finite false s m e Hv).
Qed.

Lemma mul_of_int_minus_one x :
  F32.valid x = true -> F32.mul (F32.of_int (-1)) x = SFopp x.
Proof.
  change (F32.of_int (-1)) with (S754_finite true 8388608 (-23)).
  destruct x as [s|s| |s m e]; intros Hv; try reflexivity.
  apply (mul_one_finite true s m e Hv).
Qed.


Lemma iter_pos_invariant {A : Type} (f : A -> A) (Inv : A -> Prop) :
  (forall x, Inv x -> Inv (f x)) ->
  forall n x, Inv x -> Inv (iter_pos f n x).
Proof.
  intros Hf. induction n as [n IH | n IH |]; intros x Hx; cbn; auto.
Qed.

Lemma shr_1_nonneg mrs : 0 <= shr_m mrs -> 0 <= shr_m (shr_1 mrs).
Proof.
  destruct mrs as [m r s]. destruct m as [|[p|p|]|p]; cbn; lia.
Qed.

Lemma shr_fexp_nonneg m e l :
  0 <= m -> 0 <= shr_m (fst (shr_fexp F32.prec F32.emax m e l)).
Proof.
  intros Hm. unfold shr_fexp, shr.
  assert (H0 : 0 <= shr_m (shr_record_of_loc m l))
    by (destruct l as [|[]]; exact Hm).
  destruct (fexp F32.prec F32.emax (Zdigits2 m + e) - e); cbn [fst];
    try exact H0.
  apply iter_pos_invariant; [exact shr_1_nonneg | exact H0].
Qed.

Lemma round_nearest_even_nonneg m l :
  0 <= m -> 0 <= round_nearest_even m l.
Proof.
  intros Hm. destruct l as [|[]]; cbn; try lia.
  destruct (Z.even m); lia.
Qed.

Lemma binary_round_aux_sign s m e l :
  0 <= m -> F32.has_sign s (binary_round_aux F32.prec F32.emax s m e l).
Proof.
  intros Hm. unfold binary_round_aux.
  pose proof (shr_fexp_nonneg m e l Hm) as H1.
  destruct (shr_fexp F32.prec F32.emax m e l) as [mrs' e']. cbn [fst] in H1.
  pose proof (shr_fexp_nonneg _ e' loc_Exact
                (round_nearest_even_nonneg _ (loc_of_shr_record mrs') H1))
    as H2.
  destruct (shr_fexp F32.prec F32.emax
              (round_nearest_even (shr_m mrs') (loc_of_shr_record mrs'))
              e' loc_Exact) as [mrs'' e'']. cbn [fst] in H2.
  destruct (shr_m mrs'') as [|p|p]; unfold F32.has_sign.
  - reflexivity.
  - destruct (e'' <=? F32.emax - F32.prec); reflexivity.
  - lia.
Qed.

Lemma binary_normalize_sign z e :
  z <> 0 ->
  F32.has_sign (z <? 0) (binary_normalize F32.prec F32.emax z e false).
Proof.
  intros Hz. destruct z as [|p|p]; [congruence | |];
    cbn [binary_normalize Z.ltb Z.compare]; unfold binary_round;
    destruct (shl_align _ _ _) as [mz ez];
    apply binary_round_aux_sign; lia.
Qed.

Lemma binary_normalize_nonneg z e :
  0 <= z ->
  F32.le F32.zero (binary_normalize F32.prec F32.emax z e false) = true.
Proof.
  intros Hz. destruct (Z.eq_dec z 0) as [-> | Hnz]; [reflexivity |].
  pose proof (binary_normalize_sign z e Hnz) as H.
  replace (z <? 0) with false in H by (symmetry; apply Z.ltb_ge; lia).
  destruct (binary_normalize F32.prec F32.emax z e false) as [s|s| |s m' e'];
    cbn in H; subst; try reflexivity; contradiction.
Qed.

Lemma binary_normalize_nonpos z e :
  z <= 0 ->
  F32.le (binary_normalize F32.prec F32.emax z e false) F32.zero = true.
Proof.
  intros Hz. destruct (Z.eq_dec z 0) as [-> | Hnz]; [reflexivity |].
  pose proof (binary_normalize_sign z e Hnz) as H.
  replace (z <? 0) with true in H by (symmetry; apply Z.ltb_lt; lia).
  destruct (binary_normalize F32.prec F32.emax z e false) as [s|s| |s m' e'];
    cbn in H; subst; try reflexivity; contradiction.
Qed.

Lemma iter_xO_double d m : 2 * Zpos m <= Zpos (Pos.iter xO m d).
Proof.
  induction d as [|d IH] using Pos.peano_ind.
  - cbn. lia.
  - rewrite Pos.iter_succ. rewrite Pos2Z.inj_xO. lia.
Qed.

Lemma mantissa_bound s m e :
  F32.valid (S754_finite s m e) = true -> Zpos m < 16777216.
Proof.
  intros Hv. destruct (valid_finite s m e Hv) as [Hc _].
  pose proof (digits2_pos_bound m) as Hd.
  assert (Hle : Zpos (digits2_pos m) <= 24) by lia.
  apply Z.lt_le_trans with (1 := Hd).
  change 16777216 with (2 ^ 24). apply Z.pow_le_mono_r; lia.
Qed.

(** A number of magnitude at most 360 against 360 itself: the aligned
    mantissa of 360 is not below that of the number. *)
Lemma aligned_below_360 s m e :
  F32.valid (S754_finite s m e) = true ->
  F32.le (S754_finite false m e) (F32.of_int 360) = true ->
  Zpos (fst (shl_align m e (Z.min e (-15))))
  <= Zpos (fst (shl_align 11796480 (-15) (Z.min e (-15)))).
Proof.
  intros Hv Hle. pose proof (mantissa_bound s m e Hv) as Hm.
  change (F32.of_int 360) with (S754_finite false 11796480 (-15)) in Hle.
  unfold F32.le, SFleb, SFcompare in Hle.
  destruct (Z.compare_spec e (-15)) as [-> | Hlt | Hgt].
  - cbn. fold (Pos.compare m 11796480) in Hle.
    destruct (Pos.compare_spec m 11796480); try discriminate; lia.
  - rewrite Z.min_l by lia. unfold shl_align.
    rewrite Z.sub_diag.
    destruct (e - -15) as [|d|d] eqn:Hd; try lia.
    cbn [fst]. pose proof (iter_xO_double d 11796480). lia.
  - discriminate.
Qed.

Lemma add_360_nonneg m e :
  F32.valid (S754_finite true m e) = true ->
  F32.le (S754_finite false m e) (F32.of_int 360) = true ->
  F32.le F32.zero (F32.add (S754_finite true m e) (F32.of_int 360)) = true.
Proof.
  intros Hv Hle. pose proof (aligned_below_360 true m e Hv Hle) as H.
  change (F32.of_int 360) with (S754_finite false 11796480 (-15)).
  unfold F32.add, SFadd. apply binary_normalize_nonneg.
  cbn [cond_Zopp]. lia.
Qed.

Lemma add_minus_360_nonpos m e :
  F32.valid (S754_finite false m e) = true ->
  F32.le (S754_finite false m e) (F32.of_int 360) = true ->
  F32.le (F32.add (S754_finite false m e) (F32.of_int (-360))) F32.zero
  = true.
Proof.
  intros Hv Hle. pose proof (aligned_below_360 false m e Hv Hle) as H.
  change (F32.of_int (-360)) with (S754_finite true 11796480 (-15)).
  unfold F32.add, SFadd. apply binary_normalize_nonpos.
  cbn [cond_Zopp]. lia.
Qed.

(** The partial angle after the wrap, for a measure of magnitude at most
    360: not negative in a turn of positive sign, not positive in one of
    negative sign. *)
Lemma wrap_positive raw :
  F32.valid raw = true ->
  F32.le (F32.fabsf raw) (F32.of_int 360) = true ->
  F32.le F32.zero
    (if F32.lt raw F32.zero then F32.add raw (F32.of_int 360) else raw)
  = true.
Proof.
  intros Hv Hle. destruct raw as [s|s| |s m e]; try discriminate.
  - destruct s; reflexivity.
  - destruct s.
    + cbn [F32.lt SFltb SFcompare F32.zero]. now apply add_360_nonneg.
    + reflexivity.
Qed.

Lemma wrap_negative raw :
  F32.valid raw = true ->
  F32.le (F32.fabsf raw) (F32.of_int 360) = true ->
  F32.le
    (if F32.gt raw F32.zero then F32.add raw (F32.of_int (-360)) else raw)
    F32.zero
  = true.
Proof.
  intros Hv Hle. destruct raw as [s|s| |s m e]; try discriminate.
  - destruct s; reflexivity.
  - destruct s.
    + reflexivity.
    + cbn [F32.gt SFltb SFcompare F32.zero]. now apply add_minus_360_nonpos.
Qed.

Lemma lt_opp_zero x : F32.lt (SFopp x) F32.zero = F32.gt x F32.zero.
Proof. destruct x as [[]|[]| |[] m e]; reflexivity. Qed.

(** ** Properties of [advanceSegment] *)

Section AdvanceSegment.

Variable P : Platform.
Variable L : Library.

Ltac advance_cases :=
  unfold advanceSegment, center_search, loaded_descriptor, past_descriptor,
    PathSegmentDescriptorInstGet, PathManagerStatusSet;
  cbn [PathSegmentDescriptor ActiveSegment set_Status set_ActiveSegment
       set_Timeout Position];
  match goal with
  | |- context [F32.ne ?c F32.zero] => destruct (F32.ne c F32.zero)
  end;
  [ match goal with
    | |- context [find_arc_center ?l ?a ?b ?c ?d ?e ?f] =>
        destruct (find_arc_center l a b c d e f) as [[] ?]
    end
  | ];
  reflexivity.

Lemma advanceSegment_current st o now past0 :
  pathSegmentDescriptor_current (fst (advanceSegment P L st o now past0))
  = loaded_descriptor P st o.
Proof.
  advance_cases.
Qed.

Lemma advanceSegment_ActiveSegment st o now past0 :
  ActiveSegment (pathManagerStatus (fst (advanceSegment P L st o now past0)))
  = wrap (ActiveSegment_bits P) (ActiveSegment (pathManagerStatus st) + 1).
Proof.
  advance_cases.
Qed.

Lemma advanceSegment_Status st o now past0 :
  Status (pathManagerStatus (fst (advanceSegment P L st o now past0)))
  = STATUS_INPROGRESS.
Proof.
  advance_cases.
Qed.

Lemma advanceSegment_published st o now past0 :
  PathManagerStatus (snd (advanceSegment P L st o now past0))
  = pathManagerStatus (fst (advanceSegment P L st o now past0)).
Proof.
  advance_cases.
Qed.

Lemma advanceSegment_completed st o now past0 :
  angularDistanceCompleted_D (fst (advanceSegment P L st o now past0))
  = F32.zero.
Proof.
  advance_cases.
Qed.

(** The three outcomes for the angular distance to complete. *)
Lemma advanceSegment_toComplete st o now past0 :
  angularDistanceToComplete_D (fst (advanceSegment P L st o now past0))
  = if F32.ne (PathCurvature (loaded_descriptor P st o)) F32.zero then
      match fst (center_search P L st o past0) with
      | CENTER_FOUND =>
          arc_distance_D P L (SwitchingLocus (past_descriptor st o past0))
            (loaded_descriptor P st o) (snd (center_search P L st o past0))
      | _ => F32.zero
      end
    else F32.zero.
Proof.
  advance_cases.
Qed.

Lemma advanceSegment_arc_has_center st o now past0 :
  arc_has_center (fst (advanceSegment P L st o now past0))
  = if F32.ne (PathCurvature (loaded_descriptor P st o)) F32.zero
    then fst (center_search P L st o past0)
    else arc_has_center st.
Proof.
  advance_cases.
Qed.

Lemma advanceSegment_Timeout st o now past0 :
  Timeout (pathManagerStatus (fst (advanceSegment P L st o now past0)))
  = segment_timeout P L (loaded_descriptor P st o)
      (segment_length P (past_descriptor st o past0) (loaded_descriptor P st o)
         (angularDistanceToComplete_D
            (fst (advanceSegment P L st o now past0)))).
Proof.
  advance_cases.
Qed.

Lemma advanceSegment_frame st o now past0 :
  theta_roundoff_trim_count (fst (advanceSegment P L st o now past0))
  = theta_roundoff_trim_count st
  /\ guidanceType (fst (advanceSegment P L st o now past0)) = guidanceType st
  /\ pathplanner_active (fst (advanceSegment P L st o now past0))
     = pathplanner_active st
  /\ pathManagerSettings (fst (advanceSegment P L st o now past0))
     = pathManagerSettings st
  /\ fixedWingAirspeeds (fst (advanceSegment P L st o now past0))
     = fixedWingAirspeeds st.
Proof.
  repeat split; advance_cases.
Qed.

Lemma wrap_small bits x : 0 <= x < 2 ^ bits -> wrap bits x = x.
Proof. intros H. unfold wrap. apply Z.mod_small. exact H. Qed.

Lemma advanceSegment_next_index st o now past0 :
  0 <= ActiveSegment (pathManagerStatus st) ->
  ActiveSegment (pathManagerStatus st) + 1 < 2 ^ ActiveSegment_bits P ->
  ActiveSegment (pathManagerStatus (fst (advanceSegment P L st o now past0)))
  = ActiveSegment (pathManagerStatus st) + 1.
Proof.
  intros Hlo Hhi. rewrite advanceSegment_ActiveSegment.
  apply wrap_small. lia.
Qed.

(** Over a sequence of advances the index grows by one per advance, and
    the angular distance completed is zero after the last. *)
Lemma advances_count ins : forall st,
  0 <= ActiveSegment (pathManagerStatus st) ->
  ActiveSegment (pathManagerStatus st) + Z.of_nat (length ins)
  < 2 ^ ActiveSegment_bits P ->
  ActiveSegment (pathManagerStatus (advances P L st ins))
  = ActiveSegment (pathManagerStatus st) + Z.of_nat (length ins)
  /\ (ins <> [] ->
      angularDistanceCompleted_D (advances P L st ins) = F32.zero).
Proof.
  induction ins as [|[[o now] past0] rest IH]; intros st Hlo Hhi.
  - cbn. split; [lia | congruence].
  - cbn [advances length] in *.
    assert (Hstep := advanceSegment_next_index st o now past0 Hlo ltac:(lia)).
    destruct (IH (fst (advanceSegment P L st o now past0))) as [Hidx Hzero];
      [lia | lia |].
    split; [lia |].
    intros _. destruct rest as [|x rest'].
    + cbn. apply advanceSegment_completed.
    + apply Hzero. discriminate.
Qed.

(** The index after an advance from the largest value of the field. *)
Lemma advanceSegment_index_wraps st o now past0 :
  ActiveSegment (pathManagerStatus st) + 1 = 2 ^ ActiveSegment_bits P ->
  ActiveSegment (pathManagerStatus (fst (advanceSegment P L st o now past0)))
  = 0.
Proof.
  intros Htop. rewrite advanceSegment_ActiveSegment. unfold wrap.
  rewrite Htop. apply Z_mod_same_full.
Qed.

(** C2, as amended. Every execution of [advanceSegment] increments
    [ActiveSegment] by one in the arithmetic of its unsigned field, in the
    module's status and in the published object, and leaves
    [angularDistanceCompleted_D] at exactly zero. Below the largest value
    of the field the new index is the old one plus one; from the largest
    value it is 0. Over a sequence of advances that stays within the field
    the index grows by one per advance, and the angular distance completed
    is zero after the last. *)
Theorem advanceSegment_increments_and_resets st o now past0 :
  let r := advanceSegment P L st o now past0 in
  ActiveSegment (pathManagerStatus (fst r))
  = wrap (ActiveSegment_bits P) (ActiveSegment (pathManagerStatus st) + 1)
  /\ ActiveSegment (PathManagerStatus (snd r))
     = ActiveSegment (pathManagerStatus (fst r))
  /\ angularDistanceCompleted_D (fst r) = F32.zero
  /\ (0 <= ActiveSegment (pathManagerStatus st) ->
      ActiveSegment (pathManagerStatus st) + 1 < 2 ^ ActiveSegment_bits P ->
      ActiveSegment (pathManagerStatus (fst r))
      = ActiveSegment (pathManagerStatus st) + 1)
  /\ (ActiveSegment (pathManagerStatus st) + 1 = 2 ^ ActiveSegment_bits P ->
      ActiveSegment (pathManagerStatus (fst r)) = 0)
  /\ (forall ins,
        0 <= ActiveSegment (pathManagerStatus st) ->
        ActiveSegment (pathManagerStatus st) + Z.of_nat (length ins)
        < 2 ^ ActiveSegment_bits P ->
        ActiveSegment (pathManagerStatus (advances P L st ins))
        = ActiveSegment (pathManagerStatus st) + Z.of_nat (length ins)
        /\ (ins <> [] ->
            angularDistanceCompleted_D (advances P L st ins) = F32.zero)).
Proof.
  cbv zeta. split; [| split; [| split; [| split; [| split]]]].
  - apply advanceSegment_ActiveSegment.
  - rewrite advanceSegment_published. reflexivity.
  - apply advanceSegment_completed.
  - apply advanceSegment_next_index.
  - apply advanceSegment_index_wraps.
  - intros ins. apply advances_count.
Qed.

(** *** The timeout *)

Lemma gt_zero_of_eq_zero (v : float) :
  F32.eq v F32.zero = true -> F32.gt v F32.zero = false.
Proof. destruct v as [[]|[]| |[] m e]; cbn; congruence. Qed.

(** C5. An advance computes the length [s] of the segment it loads, the
    distance between the previous and the new switching locus for zero
    curvature and the angular distance in radians divided by the curvature
    for an arc, and stores and publishes as timeout the ceiling of
    [|s| / v], clamped by [bound_min_max] to 0..65535 and converted to the
    unsigned 16-bit field, when the final velocity [v] is positive, and
    65535 when it is not, in particular when it is zero. *)
Theorem advanceSegment_timeout_law st o now past0 :
  let past := past_descriptor st o past0 in
  let cur := loaded_descriptor P st o in
  let r := advanceSegment P L st o now past0 in
  let v := FinalVelocity cur in
  let s :=
    if F32.eq (PathCurvature cur) F32.zero then
      F32.sqrtf
        (F32.add
           (F32.powf_2 (F32.sub (North (SwitchingLocus cur))
                                (North (SwitchingLocus past))))
           (F32.powf_2 (F32.sub (East (SwitchingLocus cur))
                                (East (SwitchingLocus past)))))
    else
      F32.div (F32.mul (angularDistanceToComplete_D (fst r)) (DEG2RAD P))
        (PathCurvature cur) in
  Position (previousLocus (fst r)) = SwitchingLocus past
  /\ pathSegmentDescriptor_current (fst r) = cur
  /\ PathManagerStatus (snd r) = pathManagerStatus (fst r)
  /\ (F32.gt v F32.zero = true ->
      Timeout (pathManagerStatus (fst r))
      = uint16_of_float P
          (bound_min_max L (F32.ceilf (F32.div (F32.fabsf s) v))
             (F32.of_int 0) (F32.of_int 65535)))
  /\ (F32.gt v F32.zero = false ->
      Timeout (pathManagerStatus (fst r)) = 65535)
  /\ (F32.eq v F32.zero = true ->
      Timeout (pathManagerStatus (fst r)) = 65535).
Proof.
  cbv zeta.
  assert (Hprev :
    Position (previousLocus (fst (advanceSegment P L st o now past0)))
    = SwitchingLocus (past_descriptor st o past0)).
  { unfold advanceSegment, past_descriptor.
    destruct (F32.ne _ _); [| reflexivity].
    destruct (find_arc_center _ _ _ _ _ _ _) as [[] ?]; reflexivity. }
  assert (Hneg :
    F32.gt (FinalVelocity (loaded_descriptor P st o)) F32.zero = false ->
    Timeout (pathManagerStatus (fst (advanceSegment P L st o now past0)))
    = 65535).
  { intros Hv. rewrite advanceSegment_Timeout. unfold segment_timeout.
    rewrite Hv. reflexivity. }
  split; [exact Hprev |].
  split; [apply advanceSegment_current |].
  split; [apply advanceSegment_published |].
  split; [| split].
  - intros Hv. rewrite advanceSegment_Timeout.
    unfold segment_timeout, segment_length. rewrite Hv. reflexivity.
  - exact Hneg.
  - intros Hv. apply Hneg. now apply gt_zero_of_eq_zero.
Qed.

(** C4. An advance onto a segment of nonzero curvature [c] whose arc center
    is found sets the angular distance to complete to
    [SIGN(c) * NumberOfOrbits * 360 + theta'], where [theta'] is the angle in
    degrees measured about the found center from the previous locus to the
    new switching locus, with [360 * SIGN(c)] added when [SIGN(c)] times
    the measure is negative. For a measure that is a valid number: when
    [SIGN(c)] is 1 the 360 is added exactly when the measure is negative,
    when it is -1 the 360 is subtracted exactly when the measure is
    positive; and if the magnitude of the measure is at most 360,
    [theta'] is not negative in the first case and not positive in the
    second. *)
Theorem arc_distance_law st o now past0 :
  let past := past_descriptor st o past0 in
  let cur := loaded_descriptor P st o in
  let c := PathCurvature cur in
  let r := advanceSegment P L st o now past0 in
  F32.ne c F32.zero = true ->
  fst (center_search P L st o past0) = CENTER_FOUND ->
  let center := snd (center_search P L st o past0) in
  let raw :=
    F32.mul
      (measure_arc_rad L (NE_of_NED (SwitchingLocus past))
         (NE_of_NED (SwitchingLocus cur)) center)
      (RAD2DEG P) in
  let theta' :=
    if F32.lt (F32.mul (F32.of_int (SIGN L c)) raw) F32.zero
    then F32.add raw (F32.of_int (360 * SIGN L c))
    else raw in
  angularDistanceToComplete_D (fst r)
  = F32.add (F32.of_int (SIGN L c * NumberOfOrbits cur * 360)) theta'
  /\ Position (previousLocus (fst r)) = SwitchingLocus past
  /\ (F32.valid raw = true ->
      (SIGN L c = 1 ->
       theta' = if F32.lt raw F32.zero
                then F32.add raw (F32.of_int 360) else raw)
      /\ (SIGN L c = -1 ->
          theta' = if F32.gt raw F32.zero
                   then F32.add raw (F32.of_int (-360)) else raw))
  /\ (F32.valid raw = true ->
      F32.le (F32.fabsf raw) (F32.of_int 360) = true ->
      (SIGN L c = 1 -> F32.le F32.zero theta' = true)
      /\ (SIGN L c = -1 -> F32.le theta' F32.zero = true)).
Proof.
  cbv zeta. intros Hn Hc.
  assert (Hpos : forall raw,
    F32.valid raw = true ->
    SIGN L (PathCurvature (loaded_descriptor P st o)) = 1 ->
    (if F32.lt
          (F32.mul
             (F32.of_int (SIGN L (PathCurvature (loaded_descriptor P st o))))
             raw) F32.zero
     then F32.add raw
            (F32.of_int
               (360 * SIGN L (PathCurvature (loaded_descriptor P st o))))
     else raw)
    = if F32.lt raw F32.zero then F32.add raw (F32.of_int 360) else raw).
  { intros raw Hv ->. rewrite (mul_of_int_one raw Hv). reflexivity. }
  assert (Hneg : forall raw,
    F32.valid raw = true ->
    SIGN L (PathCurvature (loaded_descriptor P st o)) = -1 ->
    (if F32.lt
          (F32.mul
             (F32.of_int (SIGN L (PathCurvature (loaded_descriptor P st o))))
             raw) F32.zero
     then F32.add raw
            (F32.of_int
               (360 * SIGN L (PathCurvature (loaded_descriptor P st o))))
     else raw)
    = if F32.gt raw F32.zero then F32.add raw (F32.of_int (-360)) else raw).
  { intros raw Hv ->. rewrite (mul_of_int_minus_one raw Hv), lt_opp_zero.
    reflexivity. }
  split; [| split; [| split]].
  - rewrite advanceSegment_toComplete, Hn, Hc. reflexivity.
  - unfold advanceSegment, past_descriptor.
    destruct (F32.ne _ _); [| reflexivity].
    destruct (find_arc_center _ _ _ _ _ _ _) as [[] ?]; reflexivity.
  - intros Hv. split; intros Hs.
    + now apply Hpos.
    + now apply Hneg.
  - intros Hv Hle. split; intros Hs.
    + rewrite (Hpos _ Hv Hs). now apply wrap_positive.
    + rewrite (Hneg _ Hv Hs). now apply wrap_negative.
Qed.

End AdvanceSegment.

(** The increment at the activation of the single-segment program. *)
Lemma advanceSegment_increments_and_resets_witness :
  let r :=
    advanceSegment Reference.platform Reference.library
      Reference.entry_state (objects (Reference.bball_input 0 0 0)) 0
      (Reference.line_to 0 0 0) in
  ActiveSegment (pathManagerStatus (fst r)) = 0 + 1
  /\ ActiveSegment (PathManagerStatus (snd r)) = 0 + 1
  /\ angularDistanceCompleted_D (fst r) = F32.zero.
Proof.
  destruct (advanceSegment_increments_and_resets Reference.platform
              Reference.library Reference.entry_state
              (objects (Reference.bball_input 0 0 0)) 0
              (Reference.line_to 0 0 0)) as (_ & Hpub & Hzero & Hnext & _).
  assert (Hidx := Hnext ltac:(vm_compute; discriminate)
                        ltac:(vm_compute; reflexivity)).
  cbv zeta. split; [exact Hidx | split; [| exact Hzero]].
  rewrite Hpub. exact Hidx.
Defined.

(** C1. An advance past the last descriptor is not detected. On every
    advance the status stored and published is [STATUS_INPROGRESS]. In the
    single-segment program, the advance taken on the end locus raises the
    index to 2 with two instances in the object, keeps the descriptor of
    segment 1 as the current one and publishes [STATUS_INPROGRESS]; the
    next iteration advances again, to index 3. *)
Theorem underrun_is_not_detected :
  (forall P L st o now past0,
      Status (PathManagerStatus (snd (advanceSegment P L st o now past0)))
      = STATUS_INPROGRESS)
  /\ pathManagerStatus (fst (fst Reference.after_activation))
     = mkStatus 1 1 STATUS_INPROGRESS 10
  /\ UAVObjGetNumInstances (objects (Reference.bball_input 100 0 200)) = 2
  /\ advanced (snd Reference.at_goal) = true
  /\ PathManagerStatus (snd (fst Reference.at_goal))
     = mkStatus 2 1 STATUS_INPROGRESS 0
  /\ pathSegmentDescriptor_current (fst (fst Reference.at_goal))
     = Reference.line_to 100 0 10
  /\ advanced (snd Reference.at_goal_again) = true
  /\ ActiveSegment (PathManagerStatus (snd (fst Reference.at_goal_again))) = 3
  /\ Status (PathManagerStatus (snd (fst Reference.at_goal_again)))
     = STATUS_INPROGRESS.
Proof.
  split.
  - intros. rewrite advanceSegment_published. apply advanceSegment_Status.
  - repeat split; vm_compute; reflexivity.
Qed.

(** ** Properties of one iteration *)

Section Iteration.

Variable P : Platform.
Variable L : Library.

Lemma checkOvershoot_same_segment st o :
  same_segment st (fst (checkOvershoot L st o))
  /\ angularDistanceCompleted_D (fst (checkOvershoot L st o))
     = angularDistanceCompleted_D st
  /\ theta_roundoff_trim_count (fst (checkOvershoot L st o))
     = theta_roundoff_trim_count st
  /\ guidanceType (fst (checkOvershoot L st o)) = guidanceType st
  /\ pathplanner_active (fst (checkOvershoot L st o)) = pathplanner_active st
  /\ ActiveSegment (pathManagerStatus (fst (checkOvershoot L st o)))
     = ActiveSegment (pathManagerStatus st).
Proof.
  unfold checkOvershoot.
  destruct (F32.eq _ _); [destruct (F32.gt _ _) |];
    repeat split.
Qed.

(** Without the flag the tail of the iteration stays on the segment. *)
Lemma supervise_no_flag st o inp :
  let r := supervise P L st o false inp in
  same_segment st (fst (fst r))
  /\ angularDistanceCompleted_D (fst (fst r)) = angularDistanceCompleted_D st
  /\ theta_roundoff_trim_count (fst (fst r)) = theta_roundoff_trim_count st
  /\ guidanceType (fst (fst r)) = guidanceType st
  /\ pathplanner_active (fst (fst r)) = pathplanner_active st
  /\ ActiveSegment (pathManagerStatus (fst (fst r)))
     = ActiveSegment (pathManagerStatus st)
  /\ fst (fst (snd r)) = false.
Proof.
  unfold supervise.
  destruct (segment_timed_out P st).
  - repeat split.
  - destruct (overshoot_check_due P st).
    + pose proof (checkOvershoot_same_segment st o) as H.
      destruct (checkOvershoot L st o) as [st' o']. cbn in *.
      unfold same_segment in *. cbn. intuition.
    + repeat split.
Qed.

(** With the flag it is an advance. *)
Lemma supervise_flag st o inp :
  supervise P L st o true inp
  = (advanceSegment P L st o (tickCount inp) (uninitialized_past inp),
     (true, false, false)).
Proof.
  unfold supervise.
  destruct (advanceSegment P L st o (tickCount inp) (uninitialized_past inp)).
  reflexivity.
Qed.

(** The head of the iteration, field by field. *)
Lemma loop_head_fields st inp st2 o2 flag m c cl :
  loop_head P L st inp = Some (st2, o2, flag, (m, c, cl)) ->
  exists gtype active o,
    select_guidance P L st (objects inp) = Some (gtype, active, o)
    /\ same_segment st st2 /\ guidanceType st2 = gtype
    /\ pathplanner_active st2 = true
    /\ (angularDistanceCompleted_D st2, oldPosition_NE st2,
        theta_roundoff_trim_count st2, m, c) = update_arc_measure P L st o
    /\ cl = sufficiently_close L st2
    /\ (active = false -> flag = true)
    /\ (active = true ->
        o2 = o /\ pathManagerStatus st2 = pathManagerStatus st
        /\ flag = if cl then checkGoalCondition L st2 o else false).
Proof.
  unfold loop_head.
  destruct (select_guidance P L st (objects inp)) as [[[gtype active] o]|];
    [| discriminate].
  destruct (update_arc_measure P L st o) as [[[[x1 x2] x3] x4] x5] eqn:Hu.
  destruct active; cbn; intros H; inversion H; subst; clear H;
    do 3 eexists; (split; [reflexivity |]); rewrite Hu; repeat split;
    try reflexivity; try discriminate;
    try (intros _; repeat split; reflexivity).
Qed.

Lemma select_guidance_engaged st o :
  engaged P (guidanceType st) o = true ->
  select_guidance P L st o = Some (guidanceType st, pathplanner_active st, o).
Proof.
  unfold engaged, select_guidance.
  destruct (PATH_PLANNER P).
  - destruct (PathPlannerStatus_PathAvailability o); [| discriminate].
    intros ->. reflexivity.
  - destruct (FlightStatus_FlightMode o); try discriminate;
      intros ->; reflexivity.
Qed.

Lemma loop_head_none st inp :
  loop_head P L st inp = None ->
  select_guidance P L st (objects inp) = None.
Proof.
  unfold loop_head.
  destruct (select_guidance P L st (objects inp)) as [[[gtype active] o]|];
    [| reflexivity].
  destruct (update_arc_measure P L st o) as [[[[x1 x2] x3] x4] x5].
  destruct active; cbn; discriminate.
Qed.

(** Half-plane switching without a descriptor after the active one. *)
Lemma checkGoalCondition_no_next st o :
  SwitchingStrategy (pathManagerSettings st) = SWITCHINGSTRATEGY_HALFPLANE ->
  UAVObjGetNumInstances o <= ActiveSegment (pathManagerStatus st) + 1 ->
  checkGoalCondition L st o = false.
Proof.
  intros Hs Hn. unfold checkGoalCondition. rewrite Hs.
  destruct (Z.ltb_spec (ActiveSegment (pathManagerStatus st) + 1)
              (UAVObjGetNumInstances o)); [lia | reflexivity].
Qed.

(** An iteration on the final segment, guidance staying selected. *)
Lemma loop_body_holds st inp :
  SwitchingStrategy (pathManagerSettings st) = SWITCHINGSTRATEGY_HALFPLANE ->
  pathplanner_active st = true ->
  engaged P (guidanceType st) (objects inp) = true ->
  UAVObjGetNumInstances (objects inp)
  <= ActiveSegment (pathManagerStatus st) + 1 ->
  let r := loop_body P L st inp in
  advanced (snd r) = false
  /\ ActiveSegment (pathManagerStatus (fst (fst r)))
     = ActiveSegment (pathManagerStatus st)
  /\ pathManagerSettings (fst (fst r)) = pathManagerSettings st
  /\ pathplanner_active (fst (fst r)) = true
  /\ guidanceType (fst (fst r)) = guidanceType st.
Proof.
  intros Hs Ha He Hn. unfold loop_body.
  pose proof (select_guidance_engaged st (objects inp) He) as Hsel.
  destruct (loop_head P L st inp) as [[[[st2 o2] flag] [[m c] cl]]|] eqn:Hh.
  - destruct (loop_head_fields _ _ _ _ _ _ _ _ Hh)
      as (g & a & o & Hsel' & Hseg & Hg & Hact & _ & _ & _ & Hon).
    rewrite Hsel in Hsel'. inversion Hsel'; subst g a o; clear Hsel'.
    destruct (Hon Ha) as (-> & Hst & Hflag).
    destruct Hseg as (_ & _ & _ & _ & Hset & _).
    assert (flag = false) as ->.
    { rewrite Hflag. destruct cl; [| reflexivity].
      apply checkGoalCondition_no_next; [congruence |].
      rewrite Hst. exact Hn. }
    pose proof (supervise_no_flag st2 (objects inp) inp) as H.
    cbv zeta in H.
    destruct (supervise P L st2 (objects inp) false inp)
      as [[st3 o3] [[adv tmo] ovs]].
    cbn in *. decompose [and] H. unfold same_segment in *.
    repeat split; try congruence. intuition congruence.
  - apply loop_head_none in Hh. congruence.
Qed.

(** A run on the final segment. *)
Lemma run_holds inputs : forall st,
  SwitchingStrategy (pathManagerSettings st) = SWITCHINGSTRATEGY_HALFPLANE ->
  pathplanner_active st = true ->
  (forall inp, In inp inputs ->
     engaged P (guidanceType st) (objects inp) = true
     /\ UAVObjGetNumInstances (objects inp)
        <= ActiveSegment (pathManagerStatus st) + 1) ->
  ActiveSegment (pathManagerStatus (fst (run P L st inputs)))
  = ActiveSegment (pathManagerStatus st)
  /\ Forall (fun tr => advanced tr = false) (snd (run P L st inputs)).
Proof.
  induction inputs as [|inp rest IH]; intros st Hs Ha Hin.
  - cbn. split; [reflexivity | constructor].
  - cbn [run].
    destruct (Hin inp (or_introl eq_refl)) as [He Hn].
    pose proof (loop_body_holds st inp Hs Ha He Hn) as H. cbv zeta in H.
    destruct (loop_body P L st inp) as [[st1 o1] tr]. cbn in H.
    destruct H as (Hadv & Hidx & Hset & Hact & Hg).
    destruct (IH st1) as [Hidx' Hall].
    + congruence.
    + exact Hact.
    + intros i Hi. rewrite Hg, Hidx. apply Hin. right. exact Hi.
    + destruct (run P L st1 rest) as [st2 trs]. cbn in *.
      split; [congruence | constructor; assumption].
Qed.

(** C3. Under the half-plane strategy, with no descriptor after the active
    one, [checkGoalCondition] answers false whatever the objects hold, the
    vehicle position among them; and while the guidance type stays selected
    and no descriptor is added, no iteration of a run advances and the
    active segment stays the same. *)
Theorem halfplane_holds_on_final_segment st :
  SwitchingStrategy (pathManagerSettings st) = SWITCHINGSTRATEGY_HALFPLANE ->
  (forall o,
      UAVObjGetNumInstances o <= ActiveSegment (pathManagerStatus st) + 1 ->
      checkGoalCondition L st o = false)
  /\ (forall inputs,
        pathplanner_active st = true ->
        (forall inp, In inp inputs ->
           engaged P (guidanceType st) (objects inp) = true
           /\ UAVObjGetNumInstances (objects inp)
              <= ActiveSegment (pathManagerStatus st) + 1) ->
        ActiveSegment (pathManagerStatus (fst (run P L st inputs)))
        = ActiveSegment (pathManagerStatus st)
        /\ Forall (fun tr => advanced tr = false)
             (snd (run P L st inputs))).
Proof.
  intros Hs. split.
  - intros o Hn. now apply checkGoalCondition_no_next.
  - intros inputs Ha Hin. now apply run_holds.
Qed.

(** Which branch the tail of the iteration takes. *)
Lemma supervise_branch st o flag inp :
  snd (supervise P L st o flag inp)
  = (flag,
     negb flag && segment_timed_out P st,
     negb flag && negb (segment_timed_out P st) && overshoot_check_due P st).
Proof.
  unfold supervise. destruct flag.
  - destruct (advanceSegment _ _ _ _ _ _). reflexivity.
  - destruct (segment_timed_out P st); [reflexivity |].
    destruct (overshoot_check_due P st); [| reflexivity].
    destruct (checkOvershoot L st o). reflexivity.
Qed.

Lemma loop_body_branches st inp st2 o2 flag m :
  loop_head P L st inp = Some (st2, o2, flag, m) ->
  let tr := snd (loop_body P L st inp) in
  idle tr = false
  /\ (advanced tr, timeout_flagged tr, overshoot_checked tr)
     = snd (supervise P L st2 o2 flag inp).
Proof.
  intros Hh. unfold loop_body. rewrite Hh. destruct m as [[m c] cl].
  destruct (supervise P L st2 o2 flag inp) as [[st3 o3] [[adv tmo] ovs]].
  split; reflexivity.
Qed.

(** C7, as amended. The tail of an iteration takes at most one of its three
    branches, in this order: it advances when [advanceSegment_flag] is set;
    else it flags a timeout when the segment timer has run out; else it
    checks for overshoot when the overshoot timer has run out; else it does
    none of the three. *)
Theorem at_most_one_branch_per_iteration st inp :
  (branches_taken (snd (loop_body P L st inp)) <= 1)%nat
  /\ (idle (snd (loop_body P L st inp)) = true ->
      branches_taken (snd (loop_body P L st inp)) = 0%nat)
  /\ (forall st2 o2 flag m,
        loop_head P L st inp = Some (st2, o2, flag, m) ->
        let tr := snd (loop_body P L st inp) in
        idle tr = false
        /\ advanced tr = flag
        /\ timeout_flagged tr = negb flag && segment_timed_out P st2
        /\ overshoot_checked tr
           = negb flag && negb (segment_timed_out P st2)
             && overshoot_check_due P st2).
Proof.
  assert (Hcase :
    forall st2 o2 flag m,
      loop_head P L st inp = Some (st2, o2, flag, m) ->
      let tr := snd (loop_body P L st inp) in
      idle tr = false
      /\ advanced tr = flag
      /\ timeout_flagged tr = negb flag && segment_timed_out P st2
      /\ overshoot_checked tr
         = negb flag && negb (segment_timed_out P st2)
           && overshoot_check_due P st2).
  { intros st2 o2 flag m Hh.
    destruct (loop_body_branches _ _ _ _ _ _ Hh) as [Hidle Hbr].
    rewrite supervise_branch in Hbr. cbv zeta.
    inversion Hbr. repeat split; assumption. }
  destruct (loop_head P L st inp) as [[[[st2 o2] flag] m]|] eqn:Hh.
  - destruct (Hcase st2 o2 flag m eq_refl) as (Hidle & Ha & Ht & Ho).
    split; [| split].
    + unfold branches_taken. rewrite Ha, Ht, Ho.
      destruct flag, (segment_timed_out P st2), (overshoot_check_due P st2);
        cbn; lia.
    + rewrite Hidle. discriminate.
    + intros ? ? ? ? Heq. inversion Heq; subst. cbv zeta.
      repeat split; assumption.
  - assert (Htr : snd (loop_body P L st inp) = idle_trace).
    { unfold loop_body. rewrite Hh. reflexivity. }
    rewrite Htr. split; [cbn; lia | split; [reflexivity | discriminate]].
Qed.

(** The straight-segment case of [checkOvershoot]. *)
Lemma checkOvershoot_straight st o :
  F32.eq (PathCurvature (pathSegmentDescriptor_current st)) F32.zero = true ->
  checkOvershoot L st o
  = if F32.gt (overshoot_dot L st (PositionActual o)) F32.zero
    then (with_status (set_Status STATUS_OVERSHOOT (pathManagerStatus st)) st,
          AlarmsSet_PathManager ALARM_CRITICAL
            (PathManagerStatusSet
               (set_Status STATUS_OVERSHOOT (pathManagerStatus st)) o))
    else (st, o).
Proof. intros H. unfold checkOvershoot. rewrite H. reflexivity. Qed.

(** *** The arc measure *)

Lemma update_arc_measure_straight st o :
  F32.eq (PathCurvature (pathSegmentDescriptor_current st)) F32.zero = true ->
  update_arc_measure P L st o
  = (angularDistanceCompleted_D st, oldPosition_NE st,
     theta_roundoff_trim_count st, false, false).
Proof.
  intros H. unfold update_arc_measure, F32.ne. unfold F32.eq in H.
  rewrite H. reflexivity.
Qed.

Lemma update_arc_measure_no_center st o :
  arc_has_center st <> CENTER_FOUND ->
  update_arc_measure P L st o
  = (angularDistanceCompleted_D st, oldPosition_NE st,
     theta_roundoff_trim_count st, false, false).
Proof.
  intros H. unfold update_arc_measure.
  destruct (F32.ne _ _); [| reflexivity].
  destruct (arc_has_center st); [congruence | reflexivity | reflexivity].
Qed.

(** With the counter at zero a measured arc is always corrected, and the
    counter is zero again afterwards. *)
Lemma update_arc_measure_tracked st o :
  theta_roundoff_trim_count st = 0 ->
  F32.ne (PathCurvature (pathSegmentDescriptor_current st)) F32.zero = true ->
  arc_has_center st = CENTER_FOUND ->
  update_arc_measure P L st o
  = (let completed1 :=
       F32.add (angularDistanceCompleted_D st)
         (F32.mul
            (measure_arc_rad L (oldPosition_NE st) (PositionActual o)
               (arcCenter_NE st))
            (RAD2DEG P)) in
     let referenceTheta_D :=
       F32.mul
         (measure_arc_rad L (NE_of_NED (Position (previousLocus st)))
            (PositionActual o) (arcCenter_NE st))
         (RAD2DEG P) in
     (F32.add completed1
        (circular_modulus_deg L (F32.sub referenceTheta_D completed1)),
      PositionActual o, 0, true, true)).
Proof.
  intros Hc Hn Ha. unfold update_arc_measure. rewrite Hn, Ha, Hc.
  reflexivity.
Qed.

Lemma update_arc_measure_counter st o :
  theta_roundoff_trim_count st = 0 ->
  let '(_, _, count, measured, corrected) := update_arc_measure P L st o in
  count = 0 /\ corrected = measured.
Proof.
  intros Hc. unfold update_arc_measure. rewrite Hc.
  destruct (F32.ne _ _); [| split; reflexivity].
  destruct (arc_has_center st); split; reflexivity.
Qed.

(** The counter stays at zero across an iteration, and the iteration
    corrects whenever it measures. *)
Lemma loop_body_counter st inp :
  theta_roundoff_trim_count st = 0 ->
  theta_roundoff_trim_count (fst (fst (loop_body P L st inp))) = 0
  /\ roundoff_corrected (snd (loop_body P L st inp))
     = arc_measured (snd (loop_body P L st inp)).
Proof.
  intros Hc. unfold loop_body.
  destruct (loop_head P L st inp) as [[[[st2 o2] flag] [[m c] cl]]|] eqn:Hh.
  - destruct (loop_head_fields _ _ _ _ _ _ _ _ Hh)
      as (g & a & o & _ & _ & _ & _ & Hu & _).
    pose proof (update_arc_measure_counter st o Hc) as Hcnt.
    rewrite <- Hu in Hcnt. destruct Hcnt as [Hc2 Hm].
    destruct flag.
    + rewrite supervise_flag.
      destruct (advanceSegment_frame P L st2 o2 (tickCount inp)
                  (uninitialized_past inp)) as (Hf & _).
      destruct (advanceSegment P L st2 o2 (tickCount inp)
                  (uninitialized_past inp)) as [st3 o3].
      cbn in *. split; congruence.
    + pose proof (supervise_no_flag st2 o2 inp) as H. cbv zeta in H.
      destruct (supervise P L st2 o2 false inp) as [[st3 o3] [[adv tmo] ovs]].
      cbn in *. decompose [and] H. split; congruence.
  - cbn. split; [exact Hc | reflexivity].
Qed.

Lemma reachable_counter st :
  reachable P L st -> theta_roundoff_trim_count st = 0.
Proof.
  induction 1 as [o now | st inp _ IH | st ev o _ IH].
  - reflexivity.
  - now apply loop_body_counter.
  - exact IH.
Qed.

Lemma run_counter inputs : forall st,
  theta_roundoff_trim_count st = 0 ->
  Forall (fun tr => roundoff_corrected tr = arc_measured tr)
    (snd (run P L st inputs)).
Proof.
  induction inputs as [|inp rest IH]; intros st Hc.
  - constructor.
  - cbn [run]. destruct (loop_body_counter st inp Hc) as [Hc1 Htr].
    destruct (loop_body P L st inp) as [[st1 o1] tr]. cbn in Hc1, Htr.
    specialize (IH st1 Hc1).
    destruct (run P L st1 rest) as [st2 trs]. cbn in *.
    constructor; assumption.
Qed.

Lemma correction_ticks_all trs : forall n,
  Forall (fun tr => roundoff_corrected tr = true) trs ->
  correction_ticks n trs = seq n (length trs).
Proof.
  induction trs as [|tr rest IH]; intros n Hall.
  - reflexivity.
  - inversion Hall as [|? ? Htr Hrest]; subst. cbn. rewrite Htr.
    f_equal. now apply IH.
Qed.

Lemma gaps_seq k : forall n, Forall (fun d => d = 1%nat) (gaps (seq n k)).
Proof.
  induction k as [|k IH]; intros n.
  - constructor.
  - destruct k as [|k'].
    + constructor.
    + change (seq n (S (S k'))) with (n :: S n :: seq (S (S n)) k').
      cbn [gaps]. constructor; [lia |].
      apply (IH (S n)).
Qed.

(** C9. From every reachable state, an iteration that measures the arc
    (nonzero curvature, center found) also runs the roundoff correction: it
    measures the angle from the previous locus to the new position and adds
    the circular modulus of its difference to the accumulated angle. So in a
    run the correction runs on exactly the iterations that measure the arc,
    and while every iteration measures it, consecutive corrections are one
    iteration apart, every time. *)
Theorem roundoff_correction_at_fixed_interval st :
  reachable P L st ->
  (forall o,
      F32.ne (PathCurvature (pathSegmentDescriptor_current st)) F32.zero
      = true ->
      arc_has_center st = CENTER_FOUND ->
      update_arc_measure P L st o
      = (let completed1 :=
           F32.add (angularDistanceCompleted_D st)
             (F32.mul
                (measure_arc_rad L (oldPosition_NE st) (PositionActual o)
                   (arcCenter_NE st))
                (RAD2DEG P)) in
         let referenceTheta_D :=
           F32.mul
             (measure_arc_rad L (NE_of_NED (Position (previousLocus st)))
                (PositionActual o) (arcCenter_NE st))
             (RAD2DEG P) in
         (F32.add completed1
            (circular_modulus_deg L (F32.sub referenceTheta_D completed1)),
          PositionActual o, 0, true, true)))
  /\ (forall inputs,
        Forall (fun tr => roundoff_corrected tr = arc_measured tr)
          (snd (run P L st inputs))
        /\ (Forall (fun tr => arc_measured tr = true)
              (snd (run P L st inputs)) ->
            Forall (fun d => d = 1%nat)
              (gaps (correction_ticks 0 (snd (run P L st inputs)))))).
Proof.
  intros Hr. pose proof (reachable_counter st Hr) as Hc. split.
  - intros o Hn Ha. now apply update_arc_measure_tracked.
  - intros inputs. pose proof (run_counter inputs st Hc) as Hall.
    split; [exact Hall |].
    intros Hm. rewrite correction_ticks_all.
    + apply gaps_seq.
    + rewrite Forall_forall in *. intros tr Hin.
      rewrite (Hall tr Hin). now apply Hm.
Qed.

(** *** Straight segments *)

Lemma zero_gate k :
  -1 <= k <= 1 ->
  F32.lt (F32.mul (F32.of_int k) (F32.sub F32.zero F32.zero))
    (F32.of_int ANGULAR_PROXIMITY_THRESHOLD) = true.
Proof.
  intros Hk.
  assert (k = -1 \/ k = 0 \/ k = 1) as [-> | [-> | ->]] by lia;
    vm_compute; reflexivity.
Qed.

Lemma advanceSegment_straight_at_zero st o now past0 :
  straight_at_zero (fst (advanceSegment P L st o now past0)).
Proof.
  unfold straight_at_zero.
  rewrite advanceSegment_current, advanceSegment_toComplete,
    advanceSegment_completed.
  unfold F32.ne, F32.eq. intros ->. split; reflexivity.
Qed.

Lemma loop_body_straight_at_zero st inp :
  straight_at_zero st ->
  straight_at_zero (fst (fst (loop_body P L st inp))).
Proof.
  intros Hinv. unfold loop_body.
  destruct (loop_head P L st inp) as [[[[st2 o2] flag] [[m c] cl]]|] eqn:Hh.
  - destruct (loop_head_fields _ _ _ _ _ _ _ _ Hh)
      as (g & a & o & _ & Hseg & _ & _ & Hu & _).
    destruct flag.
    + rewrite supervise_flag.
      pose proof (advanceSegment_straight_at_zero st2 o2 (tickCount inp)
                    (uninitialized_past inp)) as H.
      destruct (advanceSegment P L st2 o2 (tickCount inp)
                  (uninitialized_past inp)) as [st3 o3].
      exact H.
    + pose proof (supervise_no_flag st2 o2 inp) as H. cbv zeta in H.
      destruct (supervise P L st2 o2 false inp) as [[st3 o3] [[adv tmo] ovs]].
      cbn [fst snd] in *.
      destruct H as ((Hcur & Hto & _) & Hco & _).
      destruct Hseg as (Hcur2 & Hto2 & _).
      unfold straight_at_zero in *. rewrite Hcur, Hcur2, Hto, Hto2, Hco.
      intros Heq. rewrite (update_arc_measure_straight st o Heq) in Hu.
      inversion Hu as [[Hco2 Hold Hcnt Hm Hc]]. rewrite Hco2.
      now apply Hinv.
  - exact Hinv.
Qed.

Lemma reachable_straight_at_zero st :
  reachable P L st -> straight_at_zero st.
Proof.
  induction 1 as [o now | st inp _ IH | st ev o _ IH].
  - intros _. split; reflexivity.
  - now apply loop_body_straight_at_zero.
  - exact IH.
Qed.

(** An iteration over a state whose angular distances are both zero checks
    the goal condition unless it short-circuits, provided the arc is not
    measured. *)
Lemma loop_body_checks_goal st inp :
  angularDistanceToComplete_D st = F32.zero ->
  angularDistanceCompleted_D st = F32.zero ->
  (forall o,
      update_arc_measure P L st o
      = (angularDistanceCompleted_D st, oldPosition_NE st,
         theta_roundoff_trim_count st, false, false)) ->
  arc_measured (snd (loop_body P L st inp)) = false
  /\ (-1 <= SIGN L (PathCurvature (pathSegmentDescriptor_current st)) <= 1 ->
      idle (snd (loop_body P L st inp)) = false ->
      goal_checked (snd (loop_body P L st inp)) = true).
Proof.
  intros Hto Hco Hu. unfold loop_body.
  destruct (loop_head P L st inp) as [[[[st2 o2] flag] [[m c] cl]]|] eqn:Hh.
  - destruct (loop_head_fields _ _ _ _ _ _ _ _ Hh)
      as (g & a & o & _ & (Hcur & Hto2 & _) & _ & _ & Hu2 & Hcl & _).
    rewrite Hu in Hu2. inversion Hu2 as [[Hco2 Hold Hcnt Hm Hc]].
    destruct (supervise P L st2 o2 flag inp) as [[st3 o3] [[adv tmo] ovs]].
    cbn. split; [reflexivity |]. intros Hs _. subst cl.
    unfold sufficiently_close. rewrite Hcur, Hto2, Hco2, Hto, Hco.
    now apply zero_gate.
  - cbn. split; [reflexivity | discriminate].
Qed.

Lemma checkGoalCondition_ext st st' o :
  pathManagerSettings st' = pathManagerSettings st ->
  pathManagerStatus st' = pathManagerStatus st ->
  pathSegmentDescriptor_current st' = pathSegmentDescriptor_current st ->
  angularDistanceCompleted_D st' = angularDistanceCompleted_D st ->
  angularDistanceToComplete_D st' = angularDistanceToComplete_D st ->
  previousLocus st' = previousLocus st ->
  fixedWingAirspeeds st' = fixedWingAirspeeds st ->
  checkGoalCondition L st' o = checkGoalCondition L st o.
Proof.
  intros H1 H2 H3 H4 H5 H6 H7. unfold checkGoalCondition.
  rewrite H1, H2, H3, H4, H5, H6, H7. reflexivity.
Qed.

(** An iteration that finds the guidance selected and active, over a state
    whose angular distances are both zero and whose arc is not measured:
    it advances exactly when [checkGoalCondition] answers true, and the
    advance is [advanceSegment] on the status the iteration began with. *)
Lemma loop_body_goal_decides st inp :
  angularDistanceToComplete_D st = F32.zero ->
  angularDistanceCompleted_D st = F32.zero ->
  (forall o,
      update_arc_measure P L st o
      = (angularDistanceCompleted_D st, oldPosition_NE st,
         theta_roundoff_trim_count st, false, false)) ->
  -1 <= SIGN L (PathCurvature (pathSegmentDescriptor_current st)) <= 1 ->
  pathplanner_active st = true ->
  engaged P (guidanceType st) (objects inp) = true ->
  advanced (snd (loop_body P L st inp))
  = checkGoalCondition L st (objects inp)
  /\ (checkGoalCondition L st (objects inp) = true ->
      exists st2,
        fst (loop_body P L st inp)
        = advanceSegment P L st2 (objects inp) (tickCount inp)
            (uninitialized_past inp)
        /\ same_segment st st2
        /\ pathManagerStatus st2 = pathManagerStatus st
        /\ guidanceType st2 = guidanceType st
        /\ pathplanner_active st2 = true).
Proof.
  intros Hto Hco Hu Hs Ha He. unfold loop_body.
  pose proof (select_guidance_engaged st (objects inp) He) as Hsel.
  destruct (loop_head P L st inp) as [[[[st2 o2] flag] [[m c] cl]]|] eqn:Hh.
  - destruct (loop_head_fields _ _ _ _ _ _ _ _ Hh)
      as (g & a & o & Hsel' & Hseg & Hg & Hact & Hu2 & Hcl & _ & Hon).
    rewrite Hsel in Hsel'. inversion Hsel'; subst g a o; clear Hsel'.
    destruct (Hon Ha) as (-> & Hst & Hflag).
    rewrite Hu in Hu2. inversion Hu2 as [[Hco2 Hold Hcnt Hm Hcc]].
    pose proof Hseg as (Hcur & Hto2 & _ & Hpl & Hset & Hair).
    assert (cl = true) as ->.
    { rewrite Hcl. unfold sufficiently_close.
      rewrite Hcur, Hto2, Hco2, Hto, Hco. now apply zero_gate. }
    assert (Hgoal : flag = checkGoalCondition L st (objects inp)).
    { rewrite Hflag. now apply checkGoalCondition_ext. }
    rewrite <- Hgoal. split.
    + pose proof (supervise_branch st2 (objects inp) flag inp) as Hbr.
      destruct (supervise P L st2 (objects inp) flag inp)
        as [[st3 o3] [[adv tmo] ovs]].
      cbn in Hbr. inversion Hbr. reflexivity.
    + intros ->. rewrite supervise_flag.
      destruct (advanceSegment P L st2 (objects inp) (tickCount inp)
                  (uninitialized_past inp)) as [st3 o3] eqn:Hadv.
      exists st2. cbn [fst]. rewrite Hadv.
      split; [reflexivity | split; [exact Hseg | split; [exact Hst |]]].
      split; [congruence | exact Hact].
  - apply loop_head_none in Hh. congruence.
Qed.


(** *** Arcs without a center *)

Lemma advanceSegment_unresolved_arc st o now past0 :
  F32.ne (PathCurvature (loaded_descriptor P st o)) F32.zero = true ->
  fst (center_search P L st o past0) <> CENTER_FOUND ->
  unresolved_arc (fst (advanceSegment P L st o now past0)).
Proof.
  intros Hn Hc. unfold unresolved_arc.
  rewrite advanceSegment_current, advanceSegment_toComplete,
    advanceSegment_completed, advanceSegment_arc_has_center, Hn.
  repeat split; try assumption.
  destruct (fst (center_search P L st o past0)); congruence.
Qed.

Lemma loop_body_unresolved_arc st inp :
  unresolved_arc st ->
  let r := loop_body P L st inp in
  arc_measured (snd r) = false
  /\ (-1 <= SIGN L (PathCurvature (pathSegmentDescriptor_current st)) <= 1 ->
      idle (snd r) = false -> goal_checked (snd r) = true)
  /\ (advanced (snd r) = false -> unresolved_arc (fst (fst r)))
  /\ (-1 <= SIGN L (PathCurvature (pathSegmentDescriptor_current st)) <= 1 ->
      pathplanner_active st = true ->
      engaged P (guidanceType st) (objects inp) = true ->
      advanced (snd r) = checkGoalCondition L st (objects inp)).
Proof.
  intros (Hn & Hc & Hto & Hco). cbv zeta.
  assert (Hu : forall o,
             update_arc_measure P L st o
             = (angularDistanceCompleted_D st, oldPosition_NE st,
                theta_roundoff_trim_count st, false, false))
    by (intros o; now apply update_arc_measure_no_center).
  split; [| split; [| split]].
  - now apply loop_body_checks_goal.
  - now apply loop_body_checks_goal.
  - unfold loop_body.
    destruct (loop_head P L st inp) as [[[[st2 o2] flag] [[m c] cl]]|] eqn:Hh.
    + destruct (loop_head_fields _ _ _ _ _ _ _ _ Hh)
        as (g & a & o & _ & (Hcur & Hto2 & Hac & _) & _ & _ & Hu2 & _).
      rewrite Hu in Hu2. inversion Hu2 as [[Hco2 Hold Hcnt Hm Hcc]].
      pose proof (supervise_branch st2 o2 flag inp) as Hbr.
      destruct flag.
      * destruct (supervise P L st2 o2 true inp)
          as [[st3 o3] [[adv tmo] ovs]].
        cbn in Hbr. inversion Hbr. cbn. discriminate.
      * pose proof (supervise_no_flag st2 o2 inp) as H. cbv zeta in H.
        destruct (supervise P L st2 o2 false inp)
          as [[st3 o3] [[adv tmo] ovs]].
        cbn [fst snd] in *.
        destruct H as ((Hcur3 & Hto3 & Hac3 & _) & Hco3 & _).
        intros _. unfold unresolved_arc.
        rewrite Hcur3, Hcur, Hto3, Hto2, Hac3, Hac, Hco3, Hco2.
        repeat split; assumption.
    + intros _. repeat split; assumption.
  - intros Hs Ha He. unfold loop_body.
    pose proof (select_guidance_engaged st (objects inp) He) as Hsel.
    destruct (loop_head P L st inp) as [[[[st2 o2] flag] [[m c] cl]]|] eqn:Hh.
    + destruct (loop_head_fields _ _ _ _ _ _ _ _ Hh)
        as (g & a & o & Hsel' & (Hcur & Hto2 & _ & Hpl & Hset & Hair)
            & _ & _ & Hu2 & Hcl & _ & Hon).
      rewrite Hsel in Hsel'. inversion Hsel'; subst g a o; clear Hsel'.
      destruct (Hon Ha) as (-> & Hst & Hflag).
      rewrite Hu in Hu2. inversion Hu2 as [[Hco2 Hold Hcnt Hm Hcc]].
      assert (cl = true) as ->.
      { rewrite Hcl. unfold sufficiently_close.
        rewrite Hcur, Hto2, Hco2, Hto, Hco. now apply zero_gate. }
      pose proof (supervise_branch st2 (objects inp) flag inp) as Hbr.
      destruct (supervise P L st2 (objects inp) flag inp)
        as [[st3 o3] [[adv tmo] ovs]].
      cbn in Hbr. inversion Hbr. cbn. rewrite Hflag.
      now apply checkGoalCondition_ext.
    + apply loop_head_none in Hh. congruence.
Qed.

Lemma run_unresolved_arc inputs : forall st,
  unresolved_arc st ->
  Forall (fun tr => advanced tr = false) (snd (run P L st inputs)) ->
  unresolved_arc (fst (run P L st inputs))
  /\ Forall (fun tr => arc_measured tr = false) (snd (run P L st inputs)).
Proof.
  induction inputs as [|inp rest IH]; intros st Hinv Hadv.
  - cbn. split; [exact Hinv | constructor].
  - cbn [run] in *.
    pose proof (loop_body_unresolved_arc st inp Hinv) as H. cbv zeta in H.
    destruct (loop_body P L st inp) as [[st1 o1] tr].
    destruct H as (Hm & _ & Hkeep & _).
    specialize (IH st1).
    destruct (run P L st1 rest) as [st2 trs]. cbn [fst snd] in *.
    inversion Hadv as [|? ? Ha Hrest]; subst.
    destruct (IH (Hkeep Ha) Hrest) as [Hinv2 Hall].
    split; [exact Hinv2 | constructor; assumption].
Qed.

(** C6, as amended. An advance onto a segment of nonzero curvature whose
    arc center is not found sets both angular distances to zero. From then
    on, until the next advance, no iteration measures the arc, so the
    completed distance stays zero; every iteration that does not
    short-circuit checks the goal condition; and while the guidance type
    stays selected the iteration advances exactly when [checkGoalCondition]
    answers true for the configured strategy. The macro [SIGN] is taken to
    yield -1, 0 or 1. *)
Theorem unresolved_arc_leaves_goal_to_strategy st o now past0 :
  F32.ne (PathCurvature (loaded_descriptor P st o)) F32.zero = true ->
  fst (center_search P L st o past0) <> CENTER_FOUND ->
  (forall x : float, -1 <= SIGN L x <= 1) ->
  let st1 := fst (advanceSegment P L st o now past0) in
  angularDistanceToComplete_D st1 = F32.zero
  /\ angularDistanceCompleted_D st1 = F32.zero
  /\ (forall inputs,
        Forall (fun tr => advanced tr = false) (snd (run P L st1 inputs)) ->
        let st2 := fst (run P L st1 inputs) in
        angularDistanceToComplete_D st2 = F32.zero
        /\ angularDistanceCompleted_D st2 = F32.zero
        /\ Forall (fun tr => arc_measured tr = false)
             (snd (run P L st1 inputs))
        /\ (forall inp,
              let tr := snd (loop_body P L st2 inp) in
              arc_measured tr = false
              /\ (idle tr = false -> goal_checked tr = true)
              /\ (pathplanner_active st2 = true ->
                  engaged P (guidanceType st2) (objects inp) = true ->
                  advanced tr = checkGoalCondition L st2 (objects inp)))).
Proof.
  intros Hn Hc Hs. cbv zeta.
  pose proof (advanceSegment_unresolved_arc st o now past0 Hn Hc) as Hinv.
  split; [apply Hinv | split; [apply Hinv |]].
  intros inputs Hadv.
  destruct (run_unresolved_arc inputs _ Hinv Hadv) as [Hinv2 Hall].
  split; [apply Hinv2 | split; [apply Hinv2 | split; [exact Hall |]]].
  intros inp.
  pose proof (loop_body_unresolved_arc _ inp Hinv2) as H. cbv zeta in H.
  destruct H as (Hm & Hg & _ & Ha).
  split; [exact Hm | split].
  - apply Hg. apply Hs.
  - apply Ha. apply Hs.
Qed.

End Iteration.

(** On the last segment of the single-segment program, with the vehicle
    beyond the end locus and on it. *)
Lemma halfplane_holds_on_final_segment_witness :
  checkGoalCondition Reference.library Reference.on_final_segment
    (objects (Reference.halfplane_input 500 0 200)) = false
  /\ ActiveSegment
       (pathManagerStatus
          (fst (run Reference.platform Reference.library
                  Reference.on_final_segment
                  [Reference.halfplane_input 100 0 200;
                   Reference.halfplane_input 500 0 300]))) = 1.
Proof.
  destruct (halfplane_holds_on_final_segment Reference.platform
              Reference.library Reference.on_final_segment)
    as [Hcheck Hrun].
  - vm_compute. reflexivity.
  - split.
    + apply Hcheck. vm_compute. discriminate.
    + apply (Hrun [Reference.halfplane_input 100 0 200;
                   Reference.halfplane_input 500 0 300]).
      * vm_compute. reflexivity.
      * intros inp [<- | [<- | []]]; split; vm_compute;
          first [reflexivity | discriminate].
Defined.

(** A counterexample to C7 as stated, whichever way "evaluated" is read.
    On the final segment of the single-segment program, 100 ticks after
    activation, the half-plane test does not fire, the timeout of 10 s has
    not run out and the overshoot timer has not reached one second: the
    iteration takes none of the three branches. Nine iterations later the
    overshoot timer has run out: the iteration makes the timeout test,
    which fails, and then also checks for overshoot. *)
Lemma iteration_without_exactly_one :
  ~ (forall P L st inp,
        idle (snd (loop_body P L st inp)) = false ->
        branches_taken (snd (loop_body P L st inp)) = 1%nat)
  /\ ~ (forall P L st inp,
          idle (snd (loop_body P L st inp)) = false ->
          tests_made (snd (loop_body P L st inp)) = 1%nat).
Proof.
  split; intros H.
  - specialize (H Reference.platform Reference.library
                  Reference.on_final_segment
                  (Reference.halfplane_input 0 0 200)).
    vm_compute in H. specialize (H eq_refl). discriminate H.
  - specialize (H Reference.platform Reference.library
                  Reference.overshoot_check_pending
                  (Reference.halfplane_input 0 0 1100)).
    vm_compute in H. specialize (H eq_refl). discriminate H.
Qed.

(** C8. On a straight segment [checkOvershoot] takes as path vector the
    switching locus minus the previous locus, moves the switching locus
    along the unit path vector by five times the reference airspeed, and
    sets the status [STATUS_OVERSHOOT], with a critical alarm, exactly when
    the dot product of position minus moved locus with the path vector is
    positive; otherwise it changes nothing. With previous locus (0,0),
    switching locus (100,0) and airspeed 10 the moved locus is (150,0); the
    position (200,0) is flagged and the position (120,0) is not. With
    previous locus (200,0) and the same switching locus the moved locus is
    (50,0); the position (0,0) is flagged and the position (120,0) is
    not. *)
Theorem checkOvershoot_flags_beyond_extended_target :
  (forall L st o,
      F32.eq (PathCurvature (pathSegmentDescriptor_current st)) F32.zero
      = true ->
      let c := SwitchingLocus (pathSegmentDescriptor_current st) in
      let r := Position (previousLocus st) in
      let q :=
        mkNED (F32.sub (North c) (North r)) (F32.sub (East c) (East r))
          (F32.of_int 0) in
      let margin qi :=
        F32.mul
          (F32.mul (F32.div qi (VectorMagnitude L q))
             (BestClimbRateSpeed (fixedWingAirspeeds st)))
          (F32.of_int 5) in
      let target :=
        mkNE (F32.add (North c) (margin (North q)))
             (F32.add (East c) (margin (East q))) in
      let p := PositionActual o in
      let dot :=
        F32.add (F32.mul (F32.sub (North2 p) (North2 target)) (North q))
                (F32.mul (F32.sub (East2 p) (East2 target)) (East q)) in
      overshoot_q st = q
      /\ overshoot_target L st = target
      /\ overshoot_dot L st p = dot
      /\ (F32.gt dot F32.zero = true ->
          Status (pathManagerStatus (fst (checkOvershoot L st o)))
          = STATUS_OVERSHOOT
          /\ Status (PathManagerStatus (snd (checkOvershoot L st o)))
             = STATUS_OVERSHOOT
          /\ Alarm_PathManager (snd (checkOvershoot L st o)) = ALARM_CRITICAL)
      /\ (F32.gt dot F32.zero = false -> checkOvershoot L st o = (st, o)))
  /\ (let st := fst (fst Reference.after_activation) in
      let beyond :=
        Reference.objects_at Reference.single_line 200 0
          SWITCHINGSTRATEGY_BBALL in
      let short :=
        Reference.objects_at Reference.single_line 120 0
          SWITCHINGSTRATEGY_BBALL in
      Position (previousLocus st) = Reference.point 0 0
      /\ SwitchingLocus (pathSegmentDescriptor_current st)
         = Reference.point 100 0
      /\ BestClimbRateSpeed (fixedWingAirspeeds st) = Reference.fl 10
      /\ overshoot_target Reference.library st
         = mkNE (Reference.fl 150) (Reference.fl 0)
      /\ Status (pathManagerStatus
                   (fst (checkOvershoot Reference.library st beyond)))
         = STATUS_OVERSHOOT
      /\ Status (pathManagerStatus st) = STATUS_INPROGRESS
      /\ checkOvershoot Reference.library st short = (st, short))
  /\ (let st := Reference.returning in
      let beyond :=
        Reference.objects_at Reference.return_line 0 0
          SWITCHINGSTRATEGY_BBALL in
      let short :=
        Reference.objects_at Reference.return_line 120 0
          SWITCHINGSTRATEGY_BBALL in
      Position (previousLocus st) = Reference.point 200 0
      /\ SwitchingLocus (pathSegmentDescriptor_current st)
         = Reference.point 100 0
      /\ BestClimbRateSpeed (fixedWingAirspeeds st) = Reference.fl 10
      /\ overshoot_q st
         = mkNED (Reference.fl (-100)) (Reference.fl 0) (Reference.fl 0)
      /\ overshoot_target Reference.library st
         = mkNE (Reference.fl 50) (Reference.fl 0)
      /\ Status (pathManagerStatus
                   (fst (checkOvershoot Reference.library st beyond)))
         = STATUS_OVERSHOOT
      /\ Status (pathManagerStatus st) = STATUS_INPROGRESS
      /\ checkOvershoot Reference.library st short = (st, short)).
Proof.
  split; [| split].
  - intros L st o Hc.
    rewrite (checkOvershoot_straight L st o Hc).
    cbv beta zeta delta [overshoot_dot overshoot_target overshoot_q].
    split; [reflexivity | split; [reflexivity | split; [reflexivity |]]].
    split; intros ->; repeat split.
  - cbv zeta. repeat split; vm_compute; reflexivity.
  - cbv zeta. repeat split; vm_compute; reflexivity.
Qed.

(** The theorem on the line flown back from (200,0), with the vehicle at
    (0,0), beyond the moved locus (50,0). *)
Lemma checkOvershoot_flags_beyond_extended_target_witness :
  Status
    (pathManagerStatus
       (fst (checkOvershoot Reference.library Reference.returning
               (Reference.objects_at Reference.return_line 0 0
                  SWITCHINGSTRATEGY_BBALL))))
  = STATUS_OVERSHOOT.
Proof.
  destruct checkOvershoot_flags_beyond_extended_target as [H _].
  apply (H Reference.library Reference.returning
           (Reference.objects_at Reference.return_line 0 0
              SWITCHINGSTRATEGY_BBALL)).
  - vm_compute. reflexivity.
  - vm_compute. reflexivity.
Defined.

(** The tail of the iteration 100 ticks after activation on the final
    segment. *)
Lemma at_most_one_branch_per_iteration_witness :
  idle (snd (loop_body Reference.platform Reference.library
               Reference.on_final_segment
               (Reference.halfplane_input 0 0 200))) = false
  /\ (branches_taken
        (snd (loop_body Reference.platform Reference.library
                Reference.on_final_segment
                (Reference.halfplane_input 0 0 200))) <= 1)%nat.
Proof.
  destruct (at_most_one_branch_per_iteration Reference.platform
              Reference.library Reference.on_final_segment
              (Reference.halfplane_input 0 0 200)) as (Hle & _ & Hhead).
  split; [| exact Hle].
  destruct (loop_head Reference.platform Reference.library
              Reference.on_final_segment
              (Reference.halfplane_input 0 0 200))
    as [[[[st2 o2] flag] m]|] eqn:Hh.
  - apply (Hhead st2 o2 flag m eq_refl).
  - vm_compute in Hh. discriminate Hh.
Defined.

(** Three iterations on the arc of the one-arc program: each measures the
    arc and each corrects. *)
Lemma roundoff_correction_at_fixed_interval_witness :
  Forall (fun d => d = 1%nat)
    (gaps (correction_ticks 0
             (snd (run Reference.platform Reference.resolving_library
                     Reference.on_arc
                     [Reference.arc_input 10 0 200;
                      Reference.arc_input 20 1 300;
                      Reference.arc_input 30 3 400])))).
Proof.
  apply (roundoff_correction_at_fixed_interval Reference.platform
           Reference.resolving_library Reference.on_arc).
  - apply (reach_iteration Reference.platform Reference.resolving_library
             Reference.arc_entry (Reference.arc_input 0 0 100)).
    apply reach_initial.
  - vm_compute. repeat constructor.
Defined.


(** The timeout of the single-segment program at activation, 10, and of
    the program with final velocity zero, 65535. *)
Lemma advanceSegment_timeout_law_witness :
  Timeout (pathManagerStatus (fst (fst Reference.after_activation))) = 10
  /\ Timeout
       (pathManagerStatus
          (fst (advanceSegment Reference.platform Reference.library
                  Reference.entry_state
                  (Reference.objects_at Reference.halted_line 0 0
                     SWITCHINGSTRATEGY_BBALL)
                  0 (Reference.line_to 0 0 0)))) = 65535.
Proof.
  split.
  - vm_compute. reflexivity.
  - apply (advanceSegment_timeout_law Reference.platform Reference.library
             Reference.entry_state
             (Reference.objects_at Reference.halted_line 0 0
                SWITCHINGSTRATEGY_BBALL)
             0 (Reference.line_to 0 0 0)).
    vm_compute. reflexivity.
Defined.

(** A counterexample to C6 as stated: an arc whose center is not found and
    that does not complete on the next goal check. After the advance onto
    the arc of the wide-arc program both angular distances are zero and no
    center was found; with the vehicle 300 from the end locus, the next
    iteration checks the goal condition and does not advance. *)
Lemma unresolved_arc_need_not_complete :
  ~ (forall P L st inp,
        unresolved_arc st ->
        goal_checked (snd (loop_body P L st inp)) = true ->
        advanced (snd (loop_body P L st inp)) = true).
Proof.
  intros H.
  specialize (H Reference.platform Reference.library Reference.on_wide_arc
                (Reference.wide_arc_input 200)).
  assert (Hinv : unresolved_arc Reference.on_wide_arc).
  { unfold unresolved_arc. repeat split; try (vm_compute; reflexivity).
    vm_compute. discriminate. }
  specialize (H Hinv). vm_compute in H. specialize (H eq_refl).
  discriminate H.
Qed.

(** The advance onto the arc of the wide-arc program, and two iterations
    after it. *)
Lemma unresolved_arc_leaves_goal_to_strategy_witness :
  let st1 :=
    fst (advanceSegment Reference.platform Reference.library
           Reference.entry_state (objects (Reference.wide_arc_input 0)) 0
           (Reference.line_to 0 0 0)) in
  angularDistanceToComplete_D st1 = F32.zero
  /\ angularDistanceCompleted_D st1 = F32.zero.
Proof.
  destruct (unresolved_arc_leaves_goal_to_strategy Reference.platform
              Reference.library Reference.entry_state
              (objects (Reference.wide_arc_input 0)) 0
              (Reference.line_to 0 0 0)) as (Hto & Hco & _).
  - vm_compute. reflexivity.
  - vm_compute. discriminate.
  - intros x. unfold Reference.library, SIGN, Reference.SIGN.
    destruct (F32.lt x F32.zero); lia.
  - split; assumption.
Defined.

(** The advance onto the arc of the one-arc program when the measure comes
    out as minus one radian for a turn of positive sign: 360 is added, and
    the partial angle is not negative. *)
Lemma arc_distance_law_witness :
  let raw := F32.mul (Reference.fl (-1)) (RAD2DEG Reference.platform) in
  angularDistanceToComplete_D
    (fst (advanceSegment Reference.platform Reference.wrapping_library
            Reference.arc_entry (objects (Reference.arc_input 0 0 0)) 0
            (Reference.line_to 0 0 0)))
  = F32.add (F32.of_int 0) (F32.add raw (F32.of_int 360))
  /\ F32.le F32.zero (F32.add raw (F32.of_int 360)) = true.
Proof.
  destruct (arc_distance_law Reference.platform Reference.wrapping_library
              Reference.arc_entry (objects (Reference.arc_input 0 0 0)) 0
              (Reference.line_to 0 0 0)) as (Hto & _ & _ & Hsign).
  - vm_compute. reflexivity.
  - vm_compute. reflexivity.
  - split.
    + exact Hto.
    + destruct Hsign as [Hpos _].
      * vm_compute. reflexivity.
      * vm_compute. reflexivity.
      * apply Hpos. vm_compute. reflexivity.
Defined.

(** ** Further properties of the path manager *)

Ltac advance_split :=
  unfold advanceSegment, center_search, loaded_descriptor, past_descriptor,
    PathSegmentDescriptorInstGet, PathManagerStatusSet;
  cbn [PathSegmentDescriptor ActiveSegment set_Status set_ActiveSegment
       set_Timeout Position];
  match goal with
  | |- context [F32.ne ?c F32.zero] => destruct (F32.ne c F32.zero)
  end;
  [ match goal with
    | |- context [find_arc_center ?l ?a ?b ?c ?d ?e ?f] =>
        destruct (find_arc_center l a b c d e f) as [[] ?]
    end
  | ].

Section Guidance.

Variable P : Platform.
Variable L : Library.

Lemma advanceSegment_more_frame st o now past0 :
  let r := advanceSegment P L st o now past0 in
  PathCounter (pathManagerStatus (fst r)) = PathCounter (pathManagerStatus st)
  /\ segmentTimer (fst r) = now
  /\ lastSysTime (fst r) = lastSysTime st
  /\ overshootTimer (fst r) = overshootTimer st
  /\ previousLocus (fst r)
     = mkPreviousLocus (SwitchingLocus (past_descriptor st o past0))
         (FinalVelocity (past_descriptor st o past0))
  /\ same_inputs o (snd r)
  /\ Alarm_PathManager (snd r) = Alarm_PathManager o.
Proof.
  cbv zeta. unfold same_inputs. repeat split; advance_split; reflexivity.
Qed.

Lemma select_guidance_inactive st o g a o' :
  select_guidance P L st o = Some (g, a, o') ->
  pathplanner_active st = false -> a = false.
Proof.
  unfold select_guidance. intros H Ha. rewrite Ha in H.
  destruct (PATH_PLANNER P).
  - destruct (PathPlannerStatus_PathAvailability o); [| discriminate].
    destruct (negb _); inversion H; reflexivity.
  - destruct (FlightStatus_FlightMode o); try discriminate;
      destruct (negb _); inversion H; reflexivity.
Qed.

(** The state in which the tail of an activating iteration starts. *)
Lemma loop_head_activation st inp g o :
  select_guidance P L st (objects inp) = Some (g, false, o) ->
  exists st1 m,
    loop_head P L st inp
    = Some (fst (activate P st1 o (tickCount inp)),
            snd (activate P st1 o (tickCount inp)), true, m)
    /\ pathManagerStatus st1 = pathManagerStatus st
    /\ guidanceType st1 = g
    /\ pathSegmentDescriptor_current st1 = pathSegmentDescriptor_current st.
Proof.
  intros Hsel. unfold loop_head. rewrite Hsel.
  destruct (update_arc_measure P L st o) as [[[[x1 x2] x3] x4] x5].
  cbn [negb]. eexists. eexists. split; [reflexivity |].
  repeat split.
Qed.

Lemma loop_body_of_head st inp st2 o2 flag m :
  loop_head P L st inp = Some (st2, o2, flag, m) ->
  fst (loop_body P L st inp) = fst (supervise P L st2 o2 flag inp).
Proof.
  intros Hh. unfold loop_body. rewrite Hh. destruct m as [[m c] cl].
  destruct (supervise P L st2 o2 flag inp) as [[st3 o3] [[adv tmo] ovs]].
  reflexivity.
Qed.

Lemma loop_body_activation st inp g o :
  select_guidance P L st (objects inp) = Some (g, false, o) ->
  1 < 2 ^ ActiveSegment_bits P ->
  let r := loop_body P L st inp in
  advanced (snd r) = true
  /\ pathManagerStatus (fst (fst r))
     = mkStatus 1
         (wrap (PathCounter_bits P) (PathCounter (pathManagerStatus st) + 1))
         STATUS_INPROGRESS
         (Timeout (pathManagerStatus (fst (fst r))))
  /\ PathManagerStatus (snd (fst r)) = pathManagerStatus (fst (fst r))
  /\ pathplanner_active (fst (fst r)) = true
  /\ guidanceType (fst (fst r)) = g
  /\ segmentTimer (fst (fst r)) = tickCount inp
  /\ pathSegmentDescriptor_current (fst (fst r))
     = PathSegmentDescriptorInstGet o 1 (pathSegmentDescriptor_current st)
  /\ previousLocus (fst (fst r))
     = (let past := PathSegmentDescriptorInstGet o 0 (uninitialized_past inp)
        in mkPreviousLocus (SwitchingLocus past) (FinalVelocity past)).
Proof.
  intros Hsel Hbits. cbv zeta.
  destruct (loop_head_activation st inp g o Hsel)
    as (st1 & m & Hh & Hst & Hg & Hcur).
  pose proof (loop_body_of_head _ _ _ _ _ _ Hh) as Hfst.
  destruct (loop_body_branches P L _ _ _ _ _ _ Hh) as [_ Hbr].
  rewrite supervise_flag in Hfst, Hbr. cbn [fst snd] in Hfst, Hbr.
  apply (f_equal (fun x => fst (fst x))) in Hbr. cbn [fst] in Hbr.
  rename Hbr into Ha.
  rewrite Hfst. clear Hfst Hh.
  set (st2 := fst (activate P st1 o (tickCount inp))) in *.
  set (o2 := snd (activate P st1 o (tickCount inp))) in *.
  assert (Hidx : ActiveSegment (pathManagerStatus st2) = 0) by reflexivity.
  assert (Hpc : PathCounter (pathManagerStatus st2)
                = wrap (PathCounter_bits P)
                    (PathCounter (pathManagerStatus st) + 1))
    by (unfold st2; cbn; rewrite Hst; reflexivity).
  pose proof (advanceSegment_more_frame st2 o2 (tickCount inp)
                (uninitialized_past inp)) as Hfr. cbv zeta in Hfr.
  destruct Hfr as (Hpc' & Htimer & _ & _ & Hprev & _ & _).
  pose proof (advanceSegment_ActiveSegment P L st2 o2 (tickCount inp)
                (uninitialized_past inp)) as Hidx'.
  rewrite Hidx in Hidx'. rewrite wrap_small in Hidx' by lia.
  pose proof (advanceSegment_Status P L st2 o2 (tickCount inp)
                (uninitialized_past inp)) as Hstat.
  pose proof (advanceSegment_frame P L st2 o2 (tickCount inp)
                (uninitialized_past inp)) as (_ & Hg' & Hact & _).
  split; [exact Ha |].
  split.
  { destruct (pathManagerStatus
                (fst (advanceSegment P L st2 o2 (tickCount inp)
                        (uninitialized_past inp)))) as [a b c d] eqn:E.
    cbn in *. congruence. }
  split; [apply advanceSegment_published |].
  split; [rewrite Hact; reflexivity |].
  split; [rewrite Hg'; exact Hg |].
  split; [exact Htimer |].
  split.
  - rewrite advanceSegment_current. unfold loaded_descriptor.
    rewrite Hidx. rewrite wrap_small by lia.
    unfold st2, o2. cbn. rewrite Hcur. reflexivity.
  - rewrite Hprev. unfold past_descriptor. rewrite Hidx. reflexivity.
Qed.

(** X3. An iteration that does not short-circuit and finds the path manager
    not yet active, or a changed guidance type, restarts the program: it
    advances whatever the goal test says, and leaves [ActiveSegment] at 1,
    [PathCounter] incremented (in the arithmetic of its field), the status
    in progress and published, the segment timer at the current tick
    count, instance 1 as current descriptor and instance 0 as previous
    locus. *)
Theorem activation_restarts_program st inp g o :
  select_guidance P L st (objects inp) = Some (g, false, o) ->
  1 < 2 ^ ActiveSegment_bits P ->
  let r := loop_body P L st inp in
  advanced (snd r) = true
  /\ pathManagerStatus (fst (fst r))
     = mkStatus 1
         (wrap (PathCounter_bits P) (PathCounter (pathManagerStatus st) + 1))
         STATUS_INPROGRESS
         (Timeout (pathManagerStatus (fst (fst r))))
  /\ PathManagerStatus (snd (fst r)) = pathManagerStatus (fst (fst r))
  /\ pathplanner_active (fst (fst r)) = true
  /\ guidanceType (fst (fst r)) = g
  /\ segmentTimer (fst (fst r)) = tickCount inp
  /\ pathSegmentDescriptor_current (fst (fst r))
     = PathSegmentDescriptorInstGet o 1 (pathSegmentDescriptor_current st)
  /\ previousLocus (fst (fst r))
     = (let past := PathSegmentDescriptorInstGet o 0 (uninitialized_past inp)
        in mkPreviousLocus (SwitchingLocus past) (FinalVelocity past)).
Proof. exact (loop_body_activation st inp g o). Qed.


(** *** What the tail of an iteration leaves alone *)

Lemma same_inputs_refl o : same_inputs o o.
Proof. repeat split. Qed.

Lemma same_inputs_trans a b c :
  same_inputs a b -> same_inputs b c -> same_inputs a c.
Proof.
  unfold same_inputs. intros H1 H2.
  decompose [and] H1. decompose [and] H2. repeat split; congruence.
Qed.

Lemma checkOvershoot_effects st o :
  let r := checkOvershoot L st o in
  same_inputs o (snd r)
  /\ PathCounter (pathManagerStatus (fst r))
     = PathCounter (pathManagerStatus st)
  /\ Timeout (pathManagerStatus (fst r)) = Timeout (pathManagerStatus st)
  /\ (r = (st, o)
      \/ (F32.eq (PathCurvature (pathSegmentDescriptor_current st)) F32.zero
          = true
          /\ Status (pathManagerStatus (fst r)) = STATUS_OVERSHOOT
          /\ PathManagerStatus (snd r) = pathManagerStatus (fst r)
          /\ Alarm_PathManager (snd r) = ALARM_CRITICAL)).
Proof.
  cbv zeta. unfold checkOvershoot.
  destruct (F32.eq _ _) eqn:Hc; [destruct (F32.gt _ _) |];
    cbn [fst snd]; repeat split; auto 10.
Qed.

Lemma activate_effects st o now :
  same_inputs o (snd (activate P st o now))
  /\ Alarm_PathManager (snd (activate P st o now)) = Alarm_PathManager o
  /\ PathManagerStatus (snd (activate P st o now))
     = pathManagerStatus (fst (activate P st o now)).
Proof. repeat split. Qed.

Lemma supervise_effects st o flag inp :
  let r := supervise P L st o flag inp in
  same_inputs o (snd (fst r))
  /\ PathCounter (pathManagerStatus (fst (fst r)))
     = PathCounter (pathManagerStatus st)
  /\ (pathManagerStatus (fst (fst r)) = pathManagerStatus st
      \/ PathManagerStatus (snd (fst r)) = pathManagerStatus (fst (fst r)))
  /\ (Alarm_PathManager (snd (fst r)) = Alarm_PathManager o
      \/ (snd (snd r) = true
          /\ F32.eq (PathCurvature (pathSegmentDescriptor_current st))
               F32.zero = true
          /\ Status (pathManagerStatus (fst (fst r))) = STATUS_OVERSHOOT
          /\ PathManagerStatus (snd (fst r))
             = pathManagerStatus (fst (fst r))
          /\ Alarm_PathManager (snd (fst r)) = ALARM_CRITICAL))
  /\ guidanceType (fst (fst r)) = guidanceType st
  /\ pathplanner_active (fst (fst r)) = pathplanner_active st.
Proof.
  cbv zeta. destruct flag.
  - rewrite supervise_flag. cbn [fst snd].
    pose proof (advanceSegment_more_frame st o (tickCount inp)
                  (uninitialized_past inp)) as H. cbv zeta in H.
    destruct H as (Hpc & _ & _ & _ & _ & Hin & Hal).
    destruct (advanceSegment_frame P L st o (tickCount inp)
                (uninitialized_past inp)) as (_ & Hg & Ha & _).
    split; [exact Hin |]. split; [exact Hpc |].
    split; [right; apply advanceSegment_published |].
    split; [left; exact Hal |]. split; assumption.
  - unfold supervise.
    destruct (segment_timed_out P st).
    + cbn [fst snd]. split; [repeat split |].
      split; [reflexivity |]. split; [right; reflexivity |].
      split; [left; reflexivity |]. split; reflexivity.
    + destruct (overshoot_check_due P st).
      * pose proof (checkOvershoot_effects st o) as H. cbv zeta in H.
        pose proof (checkOvershoot_same_segment L st o) as H'.
        destruct (checkOvershoot L st o) as [st' o'].
        cbn [fst snd] in *.
        destruct H as (Hin & Hpc & _ & Hcase).
        destruct H' as (_ & _ & _ & Hg & Ha & _).
        split; [exact Hin |]. split; [exact Hpc |].
        destruct Hcase as [Heq | (Hc & Hs & Hp & Hal)].
        -- inversion Heq; subst.
           split; [left; reflexivity |].
           split; [left; reflexivity |]. split; reflexivity.
        -- split; [right; exact Hp |].
           split; [right; repeat split; assumption |].
           split; assumption.
      * cbn [fst snd]. split; [apply same_inputs_refl |].
        split; [reflexivity |]. split; [left; reflexivity |].
        split; [left; reflexivity |]. split; reflexivity.
Qed.


Lemma supervise_overshoot_status st o flag inp :
  let r := supervise P L st o flag inp in
  Status (pathManagerStatus (fst (fst r))) = STATUS_OVERSHOOT ->
  pathManagerStatus (fst (fst r)) = pathManagerStatus st
  \/ (snd (snd r) = true
      /\ F32.eq (PathCurvature (pathSegmentDescriptor_current st)) F32.zero
         = true
      /\ PathManagerStatus (snd (fst r)) = pathManagerStatus (fst (fst r))
      /\ Alarm_PathManager (snd (fst r)) = ALARM_CRITICAL).
Proof.
  cbv zeta. destruct flag.
  - rewrite supervise_flag. cbn [fst snd].
    rewrite advanceSegment_Status. discriminate.
  - unfold supervise.
    destruct (segment_timed_out P st); [cbn; discriminate |].
    destruct (overshoot_check_due P st); [| intros _; left; reflexivity].
    pose proof (checkOvershoot_effects st o) as H. cbv zeta in H.
    destruct (checkOvershoot L st o) as [st' o']. cbn [fst snd] in *.
    destruct H as (_ & _ & _ & [Heq | (Hc & Hs & Hp & Hal)]); intros _.
    + inversion Heq; subst. left. reflexivity.
    + right. repeat split; assumption.
Qed.

(** The head of the iteration, as to the objects and the status. *)
Lemma loop_head_effects st inp st2 o2 flag m :
  loop_head P L st inp = Some (st2, o2, flag, m) ->
  exists g a o,
    select_guidance P L st (objects inp) = Some (g, a, o)
    /\ same_inputs o o2
    /\ Alarm_PathManager o2 = Alarm_PathManager o
    /\ pathSegmentDescriptor_current st2 = pathSegmentDescriptor_current st
    /\ guidanceType st2 = g
    /\ pathplanner_active st2 = true
    /\ (a = true -> o2 = o /\ pathManagerStatus st2 = pathManagerStatus st)
    /\ (a = false ->
        flag = true
        /\ PathManagerStatus o2 = pathManagerStatus st2
        /\ ActiveSegment (pathManagerStatus st2) = 0
        /\ PathCounter (pathManagerStatus st2)
           = wrap (PathCounter_bits P)
               (PathCounter (pathManagerStatus st) + 1)).
Proof.
  unfold loop_head.
  destruct (select_guidance P L st (objects inp)) as [[[g a] o]|];
    [| discriminate].
  destruct (update_arc_measure P L st o) as [[[[x1 x2] x3] x4] x5].
  destruct a; cbn; intros H; inversion H; subst; clear H;
    do 3 eexists; (split; [reflexivity |]);
    repeat split; try discriminate.
Qed.

Lemma loop_body_idle st inp :
  select_guidance P L st (objects inp) = None ->
  loop_body P L st inp = (loop_idle P st, objects inp, idle_trace).
Proof.
  intros H. unfold loop_body, loop_head. rewrite H. reflexivity.
Qed.

Lemma loop_body_trace st inp st2 o2 flag m :
  loop_head P L st inp = Some (st2, o2, flag, m) ->
  idle (snd (loop_body P L st inp)) = false
  /\ advanced (snd (loop_body P L st inp)) = flag
  /\ overshoot_checked (snd (loop_body P L st inp))
     = snd (snd (supervise P L st2 o2 flag inp)).
Proof.
  intros Hh. destruct (loop_body_branches P L _ _ _ _ _ _ Hh) as [Hi Hbr].
  split; [exact Hi |].
  pose proof (supervise_branch P L st2 o2 flag inp) as Hsb.
  rewrite Hsb in Hbr. rewrite Hsb. cbn [snd].
  split.
  - apply (f_equal (fun x => fst (fst x))) in Hbr. exact Hbr.
  - apply (f_equal snd) in Hbr. exact Hbr.
Qed.

(** X7. The status never changes silently: after every iteration either the
    module's status is what it was before, or the [PathManagerStatus]
    object holds the module's status. *)
Theorem status_changes_are_published st inp :
  let r := loop_body P L st inp in
  pathManagerStatus (fst (fst r)) = pathManagerStatus st
  \/ PathManagerStatus (snd (fst r)) = pathManagerStatus (fst (fst r)).
Proof.
  cbv zeta.
  destruct (loop_head P L st inp) as [[[[st2 o2] flag] m]|] eqn:Hh.
  - rewrite (loop_body_of_head _ _ _ _ _ _ Hh).
    destruct (loop_head_effects _ _ _ _ _ _ Hh)
      as (g & a & o & _ & _ & _ & _ & _ & _ & Hon & Hoff).
    destruct a.
    + destruct (Hon eq_refl) as [-> Hst].
      pose proof (supervise_effects st2 o flag inp) as H. cbv zeta in H.
      destruct H as (_ & _ & [Hs | Hp] & _).
      * left. congruence.
      * right. exact Hp.
    + destruct (Hoff eq_refl) as (-> & _).
      rewrite supervise_flag. cbn [fst snd]. right.
      apply advanceSegment_published.
  - apply loop_head_none in Hh. rewrite (loop_body_idle _ _ Hh).
    left. reflexivity.
Qed.

Lemma loop_body_counters st inp :
  let r := loop_body P L st inp in
  PathCounter (pathManagerStatus (fst (fst r)))
  = match select_guidance P L st (objects inp) with
    | Some (_, false, _) =>
        wrap (PathCounter_bits P) (PathCounter (pathManagerStatus st) + 1)
    | _ => PathCounter (pathManagerStatus st)
    end
  /\ (advanced (snd r) = false ->
      ActiveSegment (pathManagerStatus (fst (fst r)))
      = ActiveSegment (pathManagerStatus st)).
Proof.
  cbv zeta.
  destruct (loop_head P L st inp) as [[[[st2 o2] flag] m]|] eqn:Hh.
  - destruct (loop_body_trace _ _ _ _ _ _ Hh) as (_ & Hadv & _).
    rewrite (loop_body_of_head _ _ _ _ _ _ Hh), Hadv.
    destruct (loop_head_effects _ _ _ _ _ _ Hh)
      as (g & a & o & Hsel & _ & _ & _ & _ & _ & Hon & Hoff).
    rewrite Hsel.
    pose proof (supervise_effects st2 o2 flag inp) as H. cbv zeta in H.
    destruct H as (_ & Hpc & _).
    destruct a.
    + destruct (Hon eq_refl) as [-> Hst]. split; [congruence |].
      intros ->.
      pose proof (supervise_no_flag P L st2 o inp) as H. cbv zeta in H.
      decompose [and] H. congruence.
    + destruct (Hoff eq_refl) as (-> & _ & _ & Hpc2).
      split; [congruence | discriminate].
  - apply loop_head_none in Hh. rewrite (loop_body_idle _ _ Hh), Hh.
    split; reflexivity.
Qed.

(** X6. [PathCounter] is incremented by an iteration exactly when that
    iteration restarts the program, and stays as it is otherwise; and an
    iteration that does not advance leaves [ActiveSegment] as it is. *)
Theorem counters_move_only_by_restart_and_advance st inp :
  let r := loop_body P L st inp in
  PathCounter (pathManagerStatus (fst (fst r)))
  = match select_guidance P L st (objects inp) with
    | Some (_, false, _) =>
        wrap (PathCounter_bits P) (PathCounter (pathManagerStatus st) + 1)
    | _ => PathCounter (pathManagerStatus st)
    end
  /\ (advanced (snd r) = false ->
      ActiveSegment (pathManagerStatus (fst (fst r)))
      = ActiveSegment (pathManagerStatus st)).
Proof. exact (loop_body_counters st inp). Qed.

(** X9. An iteration changes the path manager alarm only by raising it to
    critical, and only when its overshoot check ran on a current segment
    of zero curvature and set and published the overshoot status; it
    never clears the alarm. A status that is overshoot after the
    iteration was either there before, unchanged, or was set in that way:
    on a curved segment no overshoot is ever flagged. *)
Theorem alarm_only_with_overshoot_on_straight_segment st inp g a o :
  select_guidance P L st (objects inp) = Some (g, a, o) ->
  let r := loop_body P L st inp in
  let flagged :=
    overshoot_checked (snd r) = true
    /\ F32.eq (PathCurvature (pathSegmentDescriptor_current st)) F32.zero
       = true
    /\ Status (pathManagerStatus (fst (fst r))) = STATUS_OVERSHOOT
    /\ PathManagerStatus (snd (fst r)) = pathManagerStatus (fst (fst r))
    /\ Alarm_PathManager (snd (fst r)) = ALARM_CRITICAL in
  (Alarm_PathManager (snd (fst r)) = Alarm_PathManager o \/ flagged)
  /\ (Status (pathManagerStatus (fst (fst r))) = STATUS_OVERSHOOT ->
      pathManagerStatus (fst (fst r)) = pathManagerStatus st \/ flagged).
Proof.
  intros Hsel. cbv zeta.
  destruct (loop_head P L st inp) as [[[[st2 o2] flag] m]|] eqn:Hh.
  - destruct (loop_body_trace _ _ _ _ _ _ Hh) as (_ & _ & Hov).
    rewrite (loop_body_of_head _ _ _ _ _ _ Hh), Hov.
    destruct (loop_head_effects _ _ _ _ _ _ Hh)
      as (g' & a' & o' & Hsel' & _ & Hal & Hcur & _ & _ & Hon & Hoff).
    rewrite Hsel in Hsel'. inversion Hsel'; subst g' a' o'; clear Hsel'.
    pose proof (supervise_effects st2 o2 flag inp) as H. cbv zeta in H.
    destruct H as (_ & _ & _ & Halarm & _).
    pose proof (supervise_overshoot_status st2 o2 flag inp) as Hs.
    cbv zeta in Hs. rewrite Hcur in Halarm, Hs.
    split.
    + destruct Halarm as [He | (H1 & H2 & H3 & H4 & H5)].
      * left. congruence.
      * right. repeat split; assumption.
    + intros Hst. destruct (Hs Hst) as [He | (H1 & H2 & H3 & H4)].
      * destruct a.
        -- destruct (Hon eq_refl) as [_ Hst2]. left. congruence.
        -- destruct (Hoff eq_refl) as (-> & _).
           rewrite supervise_flag in Hst. cbn [fst] in Hst.
           rewrite advanceSegment_Status in Hst. discriminate.
      * right. repeat split; assumption.
  - apply loop_head_none in Hh. congruence.
Qed.

(** X8. Of the objects, an iteration writes nothing but the status and the
    alarm: the descriptors, the position, the flight mode, the path
    availability and the settings leave it as the head of the loop passed
    them on, which with [PATH_PLANNER] defined is as they came in; an
    iteration that short-circuits returns the objects untouched. *)
Theorem module_writes_only_status_and_alarm st inp :
  let r := loop_body P L st inp in
  match select_guidance P L st (objects inp) with
  | None => snd (fst r) = objects inp
  | Some (_, _, o) => same_inputs o (snd (fst r))
  end
  /\ (PATH_PLANNER P = true -> same_inputs (objects inp) (snd (fst r))).
Proof.
  cbv zeta.
  assert (Hmain :
    match select_guidance P L st (objects inp) with
    | None => snd (fst (loop_body P L st inp)) = objects inp
    | Some (_, _, o) => same_inputs o (snd (fst (loop_body P L st inp)))
    end).
  { destruct (loop_head P L st inp) as [[[[st2 o2] flag] m]|] eqn:Hh.
    - rewrite (loop_body_of_head _ _ _ _ _ _ Hh).
      destruct (loop_head_effects _ _ _ _ _ _ Hh)
        as (g & a & o & Hsel & Hin & _).
      rewrite Hsel.
      pose proof (supervise_effects st2 o2 flag inp) as H. cbv zeta in H.
      destruct H as (Hin2 & _).
      exact (same_inputs_trans _ _ _ Hin Hin2).
    - apply loop_head_none in Hh. rewrite (loop_body_idle _ _ Hh), Hh.
      reflexivity. }
  split; [exact Hmain |].
  intros Hpp. unfold select_guidance in Hmain. rewrite Hpp in Hmain.
  destruct (PathPlannerStatus_PathAvailability (objects inp)).
  - destruct (negb _); exact Hmain.
  - rewrite Hmain. apply same_inputs_refl.
Qed.


(** *** Selection of the guidance type *)

Lemma guidanceTypes_eqb_refl g : guidanceTypes_eqb g g = true.
Proof. destruct g; reflexivity. Qed.

Lemma guidanceTypes_eqb_eq a b : guidanceTypes_eqb a b = true -> a = b.
Proof. destruct a, b; (reflexivity || discriminate). Qed.

(** The selected guidance type is the one of the flight mode. *)
Lemma select_guidance_type st o g a o' :
  select_guidance P L st o = Some (g, a, o') -> engaged P g o = true.
Proof.
  unfold select_guidance, engaged.
  destruct (PATH_PLANNER P).
  - destruct (PathPlannerStatus_PathAvailability o); [| discriminate].
    destruct (guidanceTypes_eqb (guidanceType st) PATHPLANNER) eqn:E;
      cbn [negb]; intros H; inversion H; subst; auto.
  - destruct (FlightStatus_FlightMode o); try discriminate;
      match goal with
      | |- context [guidanceTypes_eqb (guidanceType st) ?x] =>
          destruct (guidanceTypes_eqb (guidanceType st) x) eqn:E
      end; cbn [negb]; intros H; inversion H; subst; auto.
Qed.

Lemma engaged_ext g o o' :
  FlightStatus_FlightMode o' = FlightStatus_FlightMode o ->
  PathPlannerStatus_PathAvailability o'
  = PathPlannerStatus_PathAvailability o ->
  engaged P g o' = engaged P g o.
Proof. unfold engaged. intros -> ->. reflexivity. Qed.

Lemma loop_body_guidance st inp st2 o2 flag m :
  loop_head P L st inp = Some (st2, o2, flag, m) ->
  guidanceType (fst (fst (loop_body P L st inp))) = guidanceType st2
  /\ pathplanner_active (fst (fst (loop_body P L st inp))) = true.
Proof.
  intros Hh. rewrite (loop_body_of_head _ _ _ _ _ _ Hh).
  destruct (loop_head_effects _ _ _ _ _ _ Hh)
    as (g & a & o & _ & _ & _ & _ & _ & Hact & _).
  pose proof (supervise_effects st2 o2 flag inp) as H. cbv zeta in H.
  destruct H as (_ & _ & _ & _ & Hg & Ha).
  split; congruence.
Qed.

(** X5. After an iteration that did not short-circuit, an iteration with
    the same flight mode and path availability keeps the guidance type,
    calls no program generator, does not restart the program, and leaves
    [PathCounter] as it is. *)
Theorem program_loaded_once_per_mode_change st inp1 inp2 :
  idle (snd (loop_body P L st inp1)) = false ->
  FlightStatus_FlightMode (objects inp2)
  = FlightStatus_FlightMode (objects inp1) ->
  PathPlannerStatus_PathAvailability (objects inp2)
  = PathPlannerStatus_PathAvailability (objects inp1) ->
  let st1 := fst (fst (loop_body P L st inp1)) in
  select_guidance P L st1 (objects inp2)
  = Some (guidanceType st1, true, objects inp2)
  /\ PathCounter (pathManagerStatus (fst (fst (loop_body P L st1 inp2))))
     = PathCounter (pathManagerStatus st1).
Proof.
  intros Hidle Hmode Hav. cbv zeta.
  destruct (loop_head P L st inp1) as [[[[st2 o2] flag] m]|] eqn:Hh.
  - destruct (loop_body_guidance _ _ _ _ _ _ Hh) as [Hg Ha].
    destruct (loop_head_effects _ _ _ _ _ _ Hh)
      as (g & a & o & Hsel & _ & _ & _ & Hg2 & _).
    pose proof (select_guidance_type _ _ _ _ _ Hsel) as He.
    assert (Hsel2 :
      select_guidance P L (fst (fst (loop_body P L st inp1))) (objects inp2)
      = Some (guidanceType (fst (fst (loop_body P L st inp1))), true,
              objects inp2)).
    { assert (Heng :
        engaged P (guidanceType (fst (fst (loop_body P L st inp1))))
          (objects inp2) = true)
        by (rewrite Hg, Hg2, (engaged_ext g _ _ Hmode Hav); exact He).
      pose proof (select_guidance_engaged P L _ _ Heng) as Hs.
      rewrite Ha in Hs. exact Hs. }
    split; [exact Hsel2 |].
    destruct (loop_body_counters
                (fst (fst (loop_body P L st inp1))) inp2) as [Hpc _].
    rewrite Hsel2 in Hpc. exact Hpc.
  - apply loop_head_none in Hh. rewrite (loop_body_idle _ _ Hh) in Hidle.
    discriminate.
Qed.

(** X4. An iteration that short-circuits (a flight mode without guidance,
    or no path ready) returns the objects untouched, takes none of the
    three branches, keeps the status and the current descriptor, and drops
    the guidance type to [NOMANAGER]; the next iteration that does not
    short-circuit then restarts the program: it advances, to
    [ActiveSegment] 1 and the next [PathCounter]. *)
Theorem leaving_guidance_restarts_program st inp1 :
  select_guidance P L st (objects inp1) = None ->
  let st1 := fst (fst (loop_body P L st inp1)) in
  snd (fst (loop_body P L st inp1)) = objects inp1
  /\ branches_taken (snd (loop_body P L st inp1)) = 0%nat
  /\ pathManagerStatus st1 = pathManagerStatus st
  /\ pathSegmentDescriptor_current st1 = pathSegmentDescriptor_current st
  /\ guidanceType st1 = NOMANAGER
  /\ (forall inp2,
        idle (snd (loop_body P L st1 inp2)) = false ->
        1 < 2 ^ ActiveSegment_bits P ->
        advanced (snd (loop_body P L st1 inp2)) = true
        /\ ActiveSegment
             (pathManagerStatus (fst (fst (loop_body P L st1 inp2)))) = 1
        /\ PathCounter
             (pathManagerStatus (fst (fst (loop_body P L st1 inp2))))
           = wrap (PathCounter_bits P)
               (PathCounter (pathManagerStatus st) + 1)).
Proof.
  intros Hsel. cbv zeta. rewrite (loop_body_idle _ _ Hsel). cbn [fst snd].
  split; [reflexivity |]. split; [reflexivity |]. split; [reflexivity |].
  split; [reflexivity |]. split; [reflexivity |].
  intros inp2 H H0.
  assert (Hsel2 : exists g o,
            select_guidance P L (loop_idle P st) (objects inp2)
            = Some (g, false, o)).
  { destruct (loop_head P L (loop_idle P st) inp2)
      as [[[[st2 o2] flag] m]|] eqn:Hh.
    + destruct (loop_head_effects _ _ _ _ _ _ Hh)
        as (g & a & o & Hsel2 & _).
      assert (a = false) as ->
        by (apply (select_guidance_inactive _ _ _ _ _ Hsel2); reflexivity).
      eauto.
    + apply loop_head_none in Hh. rewrite (loop_body_idle _ _ Hh) in H.
      discriminate. }
  destruct Hsel2 as (g & o & Hsel2).
  destruct (loop_body_activation _ _ _ _ Hsel2 H0)
    as (Hadv & Hst & _).
  split; [exact Hadv |]. rewrite Hst. split; reflexivity.
Qed.


(** *** Overshoot on a segment of no length *)

Lemma sub_self x : is_finite x = true -> F32.sub x x = F32.zero.
Proof.
  destruct x as [[]|[]| |s m e]; try discriminate; try reflexivity.
  intros _. unfold F32.sub, SFsub. rewrite Z.sub_diag. reflexivity.
Qed.

Lemma add_nan_r x : F32.add x S754_nan = S754_nan.
Proof. destruct x as [[]|[]| |[] m e]; reflexivity. Qed.

Lemma sub_nan_r x : F32.sub x S754_nan = S754_nan.
Proof. destruct x as [[]|[]| |[] m e]; reflexivity. Qed.

Lemma div_zero_by_zero q :
  F32.eq q F32.zero = true -> F32.div F32.zero q = S754_nan.
Proof. destruct q as [[]|[]| |[] m e]; (reflexivity || discriminate). Qed.

Lemma overshoot_dot_degenerate st p :
  North (Position (previousLocus st))
  = North (SwitchingLocus (pathSegmentDescriptor_current st)) ->
  East (Position (previousLocus st))
  = East (SwitchingLocus (pathSegmentDescriptor_current st)) ->
  is_finite (North (SwitchingLocus (pathSegmentDescriptor_current st)))
  = true ->
  is_finite (East (SwitchingLocus (pathSegmentDescriptor_current st)))
  = true ->
  F32.eq (VectorMagnitude L (overshoot_q st)) F32.zero = true ->
  overshoot_dot L st p = S754_nan.
Proof.
  intros Hn He Hfn Hfe Hq.
  unfold overshoot_dot, overshoot_target.
  assert (Hqv : overshoot_q st = mkNED F32.zero F32.zero (F32.of_int 0)).
  { unfold overshoot_q. rewrite Hn, He, !sub_self by assumption.
    reflexivity. }
  rewrite Hqv in *. cbn [North East North2 East2].
  rewrite (div_zero_by_zero _ Hq).
  change (F32.mul S754_nan
            (BestClimbRateSpeed (fixedWingAirspeeds st))) with S754_nan.
  change (F32.mul S754_nan (F32.of_int 5)) with S754_nan.
  rewrite !add_nan_r, !sub_nan_r. reflexivity.
Qed.

(** X10. On a straight segment whose switching locus is its previous locus,
    with finite coordinates, the path vector is zero; if its magnitude is
    zero, the division by it gives a NaN, the dot product is a NaN, and
    [checkOvershoot] changes nothing, wherever the vehicle is. *)
Theorem no_overshoot_on_segment_without_length st o :
  F32.eq (PathCurvature (pathSegmentDescriptor_current st)) F32.zero = true ->
  North (Position (previousLocus st))
  = North (SwitchingLocus (pathSegmentDescriptor_current st)) ->
  East (Position (previousLocus st))
  = East (SwitchingLocus (pathSegmentDescriptor_current st)) ->
  is_finite (North (SwitchingLocus (pathSegmentDescriptor_current st)))
  = true ->
  is_finite (East (SwitchingLocus (pathSegmentDescriptor_current st)))
  = true ->
  F32.eq (VectorMagnitude L (overshoot_q st)) F32.zero = true ->
  overshoot_q st = mkNED F32.zero F32.zero (F32.of_int 0)
  /\ overshoot_dot L st (PositionActual o) = S754_nan
  /\ checkOvershoot L st o = (st, o).
Proof.
  intros Hc Hn He Hfn Hfe Hq.
  pose proof (overshoot_dot_degenerate st (PositionActual o) Hn He Hfn Hfe Hq)
    as Hdot.
  split; [| split; [exact Hdot |]].
  - unfold overshoot_q. rewrite Hn, He, !sub_self by assumption.
    reflexivity.
  - rewrite (checkOvershoot_straight L st o Hc), Hdot. reflexivity.
Qed.

(** *** The timeout test and the wrap of the tick count *)

(** X11. The timeout test with times and timeout within the range of the
    tick type. With the segment timer not after the wake-up time, the
    segment is timed out when more ticks than the timeout have passed.
    With the segment timer after the wake-up time the difference wraps,
    and the segment is timed out unless the timeout exceeds the range of
    the tick type less that lead. *)
Theorem segment_timed_out_wraps st :
  0 < portTickType_bits P ->
  0 <= segmentTimer st < 2 ^ portTickType_bits P ->
  0 <= lastSysTime st < 2 ^ portTickType_bits P ->
  0 <= Timeout (pathManagerStatus st) * 1000 * portTICK_RATE_MS P
    < 2 ^ portTickType_bits P ->
  (segmentTimer st <= lastSysTime st ->
   segment_timed_out P st
   = (Timeout (pathManagerStatus st) * 1000 * portTICK_RATE_MS P
      <? lastSysTime st - segmentTimer st))
  /\ (lastSysTime st < segmentTimer st ->
      segment_timed_out P st
      = (Timeout (pathManagerStatus st) * 1000 * portTICK_RATE_MS P
         <? 2 ^ portTickType_bits P - (segmentTimer st - lastSysTime st))).
Proof.
  intros Hb Hs Hl Ht. unfold segment_timed_out.
  rewrite (wrap_small _ _ Ht).
  split; intros Hord.
  - rewrite wrap_small by lia. reflexivity.
  - unfold wrap.
    replace (lastSysTime st - segmentTimer st)
      with (2 ^ portTickType_bits P - (segmentTimer st - lastSysTime st)
            + (-1) * 2 ^ portTickType_bits P) by lia.
    rewrite Z_mod_plus_full. rewrite Z.mod_small by lia. reflexivity.
Qed.


(** *** Advances in sequence and past the end *)

Lemma InstGet_in_range o id d d' :
  0 <= id < UAVObjGetNumInstances o ->
  PathSegmentDescriptorInstGet o id d = PathSegmentDescriptorInstGet o id d'.
Proof.
  unfold PathSegmentDescriptorInstGet, UAVObjGetNumInstances. intros H.
  destruct (Z.ltb_spec id 0); [lia |].
  apply nth_indep. lia.
Qed.

Lemma InstGet_past_end o id d :
  UAVObjGetNumInstances o <= id ->
  PathSegmentDescriptorInstGet o id d = d.
Proof.
  unfold PathSegmentDescriptorInstGet, UAVObjGetNumInstances. intros H.
  destruct (Z.ltb_spec id 0); [reflexivity |].
  apply nth_overflow. lia.
Qed.

Lemma InstGet_same_list o o' id d :
  PathSegmentDescriptor o' = PathSegmentDescriptor o ->
  PathSegmentDescriptorInstGet o' id d = PathSegmentDescriptorInstGet o id d.
Proof. unfold PathSegmentDescriptorInstGet. intros ->. reflexivity. Qed.

(** X13. Of two advances in succession over the same descriptors, with an
    instance at the index reached by the first, the second takes as
    previous locus the switching locus and final velocity of the
    descriptor that the first made current; the first takes those of the
    instance at the index it started from, or of the uninitialised local
    where there is none. *)
Theorem consecutive_advances_chain st o o' now now' past0 past0' :
  0 <= ActiveSegment (pathManagerStatus st) ->
  ActiveSegment (pathManagerStatus st) + 1 < UAVObjGetNumInstances o ->
  ActiveSegment (pathManagerStatus st) + 1 < 2 ^ ActiveSegment_bits P ->
  PathSegmentDescriptor o' = PathSegmentDescriptor o ->
  let st1 := fst (advanceSegment P L st o now past0) in
  let st2 := fst (advanceSegment P L st1 o' now' past0') in
  previousLocus st2
  = mkPreviousLocus (SwitchingLocus (pathSegmentDescriptor_current st1))
      (FinalVelocity (pathSegmentDescriptor_current st1))
  /\ previousLocus st1
     = mkPreviousLocus
         (SwitchingLocus
            (nth (Z.to_nat (ActiveSegment (pathManagerStatus st)))
               (PathSegmentDescriptor o) past0))
         (FinalVelocity
            (nth (Z.to_nat (ActiveSegment (pathManagerStatus st)))
               (PathSegmentDescriptor o) past0)).
Proof.
  intros Hlo Hn Hb Hlist. cbv zeta.
  pose proof (advanceSegment_more_frame st o now past0) as H1.
  pose proof (advanceSegment_more_frame
                (fst (advanceSegment P L st o now past0)) o' now' past0')
    as H2.
  cbv zeta in H1, H2.
  destruct H1 as (_ & _ & _ & _ & Hp1 & _).
  destruct H2 as (_ & _ & _ & _ & Hp2 & _).
  split.
  - rewrite Hp2. unfold past_descriptor.
    rewrite advanceSegment_current, advanceSegment_ActiveSegment.
    unfold loaded_descriptor. rewrite wrap_small by lia.
    rewrite (InstGet_same_list o o' _ _ Hlist).
    rewrite (InstGet_in_range o _ past0' (pathSegmentDescriptor_current st))
      by lia.
    reflexivity.
  - rewrite Hp1. unfold past_descriptor, PathSegmentDescriptorInstGet.
    destruct (Z.ltb_spec (ActiveSegment (pathManagerStatus st)) 0);
      [lia | reflexivity].
Qed.

(** X14. An advance from an index at or beyond the number of instances
    takes the previous locus from the uninitialised local and increments
    the index, in the arithmetic of its field, all the same. Where the
    incremented index is beyond the instances too, as it is below the
    largest value of the field, the second read fails as well and the
    current descriptor stays the stale one; from the largest value the
    index wraps to 0 and the descriptor of instance 0, where there is one,
    becomes current. The timeout is computed from the uninitialised local
    and the descriptor that is current after the advance. *)
Theorem advance_past_end_keeps_uninitialised_past st o now past0 :
  UAVObjGetNumInstances o <= ActiveSegment (pathManagerStatus st) ->
  let st1 := fst (advanceSegment P L st o now past0) in
  let next :=
    wrap (ActiveSegment_bits P) (ActiveSegment (pathManagerStatus st) + 1) in
  previousLocus st1
  = mkPreviousLocus (SwitchingLocus past0) (FinalVelocity past0)
  /\ ActiveSegment (pathManagerStatus st1) = next
  /\ pathSegmentDescriptor_current st1
     = PathSegmentDescriptorInstGet o next (pathSegmentDescriptor_current st)
  /\ (UAVObjGetNumInstances o <= next ->
      pathSegmentDescriptor_current st1 = pathSegmentDescriptor_current st)
  /\ (ActiveSegment (pathManagerStatus st) + 1 < 2 ^ ActiveSegment_bits P ->
      next = ActiveSegment (pathManagerStatus st) + 1
      /\ pathSegmentDescriptor_current st1 = pathSegmentDescriptor_current st)
  /\ (ActiveSegment (pathManagerStatus st) + 1 = 2 ^ ActiveSegment_bits P ->
      next = 0
      /\ pathSegmentDescriptor_current st1
         = nth 0 (PathSegmentDescriptor o) (pathSegmentDescriptor_current st))
  /\ Timeout (pathManagerStatus st1)
     = segment_timeout P L (pathSegmentDescriptor_current st1)
         (segment_length P past0 (pathSegmentDescriptor_current st1)
            (angularDistanceToComplete_D st1)).
Proof.
  intros Hn. cbv zeta.
  assert (Hlo : 0 <= ActiveSegment (pathManagerStatus st))
    by (unfold UAVObjGetNumInstances in Hn; lia).
  pose proof (advanceSegment_more_frame st o now past0) as H1.
  cbv zeta in H1. destruct H1 as (_ & _ & _ & _ & Hp1 & _).
  assert (Hpast : past_descriptor st o past0 = past0)
    by (apply InstGet_past_end; lia).
  assert (Hcur :
    pathSegmentDescriptor_current (fst (advanceSegment P L st o now past0))
    = PathSegmentDescriptorInstGet o
        (wrap (ActiveSegment_bits P)
           (ActiveSegment (pathManagerStatus st) + 1))
        (pathSegmentDescriptor_current st))
    by (rewrite advanceSegment_current; reflexivity).
  split; [rewrite Hp1, Hpast; reflexivity |].
  split; [apply advanceSegment_ActiveSegment |].
  split; [exact Hcur |].
  split; [intros Hend; rewrite Hcur; now apply InstGet_past_end |].
  split; [| split].
  - intros Hb.
    assert (Hw : wrap (ActiveSegment_bits P)
                   (ActiveSegment (pathManagerStatus st) + 1)
                 = ActiveSegment (pathManagerStatus st) + 1)
      by (apply wrap_small; lia).
    split; [exact Hw |].
    rewrite Hcur, Hw. apply InstGet_past_end. lia.
  - intros Htop.
    assert (Hw : wrap (ActiveSegment_bits P)
                   (ActiveSegment (pathManagerStatus st) + 1) = 0)
      by (unfold wrap; rewrite Htop; apply Z_mod_same_full).
    split; [exact Hw |].
    rewrite Hcur, Hw. reflexivity.
  - rewrite advanceSegment_Timeout, Hpast, advanceSegment_current.
    reflexivity.
Qed.

(** *** A switching strategy that is neither of the two *)

Lemma checkGoalCondition_other st o :
  SwitchingStrategy (pathManagerSettings st) = SWITCHINGSTRATEGY_OTHER ->
  checkGoalCondition L st o = false.
Proof. intros H. unfold checkGoalCondition. rewrite H. reflexivity. Qed.

Lemma loop_body_other st inp :
  SwitchingStrategy (pathManagerSettings st) = SWITCHINGSTRATEGY_OTHER ->
  pathplanner_active st = true ->
  engaged P (guidanceType st) (objects inp) = true ->
  let r := loop_body P L st inp in
  advanced (snd r) = false
  /\ ActiveSegment (pathManagerStatus (fst (fst r)))
     = ActiveSegment (pathManagerStatus st)
  /\ pathManagerSettings (fst (fst r)) = pathManagerSettings st
  /\ pathplanner_active (fst (fst r)) = true
  /\ guidanceType (fst (fst r)) = guidanceType st.
Proof.
  intros Hs Ha He. cbv zeta.
  pose proof (select_guidance_engaged P L st (objects inp) He) as Hsel.
  destruct (loop_head P L st inp) as [[[[st2 o2] flag] [[m c] cl]]|] eqn:Hh.
  - destruct (loop_head_fields P L _ _ _ _ _ _ _ _ Hh)
      as (g & a & o & Hsel' & Hseg & Hg & Hact & _ & _ & _ & Hon).
    rewrite Hsel in Hsel'. inversion Hsel'; subst g a o; clear Hsel'.
    destruct (Hon Ha) as (-> & Hst & Hflag).
    destruct Hseg as (_ & _ & _ & _ & Hset & _).
    assert (flag = false) as ->.
    { rewrite Hflag. destruct cl; [| reflexivity].
      apply checkGoalCondition_other. congruence. }
    destruct (loop_body_trace _ _ _ _ _ _ Hh) as (_ & Hadv & _).
    rewrite (loop_body_of_head _ _ _ _ _ _ Hh), Hadv.
    pose proof (supervise_no_flag P L st2 (objects inp) inp) as H.
    cbv zeta in H. destruct H as ((_ & _ & _ & _ & Hset3 & _) & _ & _ & Hg3
                                  & Ha3 & Hi3 & _).
    repeat split; congruence.
  - apply loop_head_none in Hh. congruence.
Qed.

(** X12. With a switching strategy that is neither half-plane nor
    proximity-ball, no iteration of a run advances and [ActiveSegment]
    stays as it is, while the guidance type stays selected. *)
Theorem unknown_strategy_never_advances inputs : forall st,
  SwitchingStrategy (pathManagerSettings st) = SWITCHINGSTRATEGY_OTHER ->
  pathplanner_active st = true ->
  (forall inp, In inp inputs ->
     engaged P (guidanceType st) (objects inp) = true) ->
  ActiveSegment (pathManagerStatus (fst (run P L st inputs)))
  = ActiveSegment (pathManagerStatus st)
  /\ Forall (fun tr => advanced tr = false) (snd (run P L st inputs)).
Proof.
  induction inputs as [|inp rest IH]; intros st Hs Ha Hin.
  - cbn. split; [reflexivity | constructor].
  - cbn [run].
    pose proof (loop_body_other st inp Hs Ha (Hin inp (or_introl eq_refl)))
      as H. cbv zeta in H.
    destruct (loop_body P L st inp) as [[st1 o1] tr]. cbn in H.
    destruct H as (Hadv & Hidx & Hset & Hact & Hg).
    destruct (IH st1) as [Hidx' Hall].
    + congruence.
    + exact Hact.
    + intros i Hi. rewrite Hg. apply Hin. right. exact Hi.
    + destruct (run P L st1 rest) as [st2 trs]. cbn in *.
      split; [congruence | constructor; assumption].
Qed.


(** *** The settings objects and the cached settings *)

Lemma advanceSegment_ignores_settings st o now past0 s a :
  advanceSegment P L st (with_settings_objects s a o) now past0
  = (fst (advanceSegment P L st o now past0),
     with_settings_objects s a (snd (advanceSegment P L st o now past0))).
Proof.
  unfold with_settings_objects. advance_split; reflexivity.
Qed.

Lemma checkOvershoot_ignores_settings st o s a :
  checkOvershoot L st (with_settings_objects s a o)
  = (fst (checkOvershoot L st o),
     with_settings_objects s a (snd (checkOvershoot L st o))).
Proof.
  unfold checkOvershoot, with_settings_objects. cbn [PositionActual].
  destruct (F32.eq _ _); [destruct (F32.gt _ _) |]; reflexivity.
Qed.

Lemma supervise_ignores_settings st o flag inp s a :
  supervise P L st (with_settings_objects s a o) flag
    (with_settings_input s a inp)
  = (fst (fst (supervise P L st o flag inp)),
     with_settings_objects s a (snd (fst (supervise P L st o flag inp))),
     snd (supervise P L st o flag inp)).
Proof.
  unfold supervise. cbn [tickCount uninitialized_past with_settings_input].
  destruct flag.
  - rewrite advanceSegment_ignores_settings.
    destruct (advanceSegment P L st o (tickCount inp)
                (uninitialized_past inp)). reflexivity.
  - destruct (segment_timed_out P st); [reflexivity |].
    destruct (overshoot_check_due P st); [| reflexivity].
    rewrite checkOvershoot_ignores_settings.
    destruct (checkOvershoot L st o). reflexivity.
Qed.

Lemma loop_head_ignores_settings st inp s a :
  PATH_PLANNER P = true ->
  loop_head P L st (with_settings_input s a inp)
  = match loop_head P L st inp with
    | None => None
    | Some (st2, o2, flag, m) =>
        Some (st2, with_settings_objects s a o2, flag, m)
    end.
Proof.
  intros Hpp. unfold loop_head, select_guidance. rewrite Hpp.
  cbn [objects with_settings_input with_settings_objects
       PathPlannerStatus_PathAvailability tickCount].
  destruct (PathPlannerStatus_PathAvailability (objects inp));
    [| reflexivity].
  destruct (negb (guidanceTypes_eqb (guidanceType st) PATHPLANNER));
    match goal with
    | |- context [update_arc_measure P L st ?o'] =>
        change (update_arc_measure P L st o')
          with (update_arc_measure P L st (objects inp))
    end;
    destruct (update_arc_measure P L st (objects inp))
      as [[[[x1 x2] x3] x4] x5];
    try destruct (pathplanner_active st); reflexivity.
Qed.

Lemma loop_body_ignores_settings st inp s a :
  PATH_PLANNER P = true ->
  loop_body P L st (with_settings_input s a inp)
  = (fst (fst (loop_body P L st inp)),
     with_settings_objects s a (snd (fst (loop_body P L st inp))),
     snd (loop_body P L st inp)).
Proof.
  intros Hpp. unfold loop_body.
  rewrite (loop_head_ignores_settings st inp s a Hpp).
  destruct (loop_head P L st inp) as [[[[st2 o2] flag] [[m c] cl]]|].
  - rewrite supervise_ignores_settings.
    destruct (supervise P L st2 o2 flag inp) as [[st3 o3] [[adv tmo] ovs]].
    reflexivity.
  - reflexivity.
Qed.

Lemma loop_body_keeps_cache st inp :
  pathManagerSettings (fst (fst (loop_body P L st inp)))
  = pathManagerSettings st
  /\ fixedWingAirspeeds (fst (fst (loop_body P L st inp)))
     = fixedWingAirspeeds st.
Proof.
  destruct (loop_head P L st inp) as [[[[st2 o2] flag] [[m c] cl]]|] eqn:Hh.
  - rewrite (loop_body_of_head _ _ _ _ _ _ Hh).
    destruct (loop_head_fields P L _ _ _ _ _ _ _ _ Hh)
      as (g & a' & o & _ & (_ & _ & _ & _ & Hset & Hair) & _).
    destruct flag.
    + rewrite supervise_flag. cbn [fst].
      destruct (advanceSegment_frame P L st2 o2 (tickCount inp)
                  (uninitialized_past inp)) as (_ & _ & _ & Hs & Ha).
      split; congruence.
    + pose proof (supervise_no_flag P L st2 o2 inp) as H. cbv zeta in H.
      destruct H as ((_ & _ & _ & _ & Hs & Ha) & _).
      split; congruence.
  - apply loop_head_none in Hh. rewrite (loop_body_idle _ _ Hh).
    split; reflexivity.
Qed.

(** X15. With [PATH_PLANNER] defined, what the settings objects hold makes
    no difference to an iteration: the state and the trace it produces are
    the same, and it leaves the cached settings as they are. The cache is
    filled by [settingsUpdated]: the null event copies both objects, which
    is the event of the one followed by the event of the other, and the
    event of another object changes nothing. *)
Theorem settings_take_effect_only_through_callback st inp s a :
  PATH_PLANNER P = true ->
  let r := loop_body P L st inp in
  let r' := loop_body P L st (with_settings_input s a inp) in
  fst (fst r') = fst (fst r)
  /\ snd r' = snd r
  /\ snd (fst r') = with_settings_objects s a (snd (fst r))
  /\ pathManagerSettings (fst (fst r)) = pathManagerSettings st
  /\ fixedWingAirspeeds (fst (fst r)) = fixedWingAirspeeds st
  /\ pathManagerSettings (settingsUpdated EV_NULL (objects inp) st)
     = PathManagerSettings (objects inp)
  /\ fixedWingAirspeeds (settingsUpdated EV_NULL (objects inp) st)
     = FixedWingAirspeeds (objects inp)
  /\ settingsUpdated EV_NULL (objects inp) st
     = settingsUpdated EV_FixedWingAirspeeds (objects inp)
         (settingsUpdated EV_PathManagerSettings (objects inp) st)
  /\ settingsUpdated EV_other (objects inp) st = st.
Proof.
  intros Hpp. cbv zeta.
  rewrite (loop_body_ignores_settings st inp s a Hpp). cbn [fst snd].
  destruct (loop_body_keeps_cache st inp) as [Hs Ha].
  repeat split; try assumption.
  destruct st; reflexivity.
Qed.

End Guidance.

(** ** Start of the module *)

(** X1. [PathManagerInitialize] has no defined result exactly when the
    module is built in or enabled in the module settings and [pvPortMalloc]
    returns no block: the [memset] then writes through the null pointer.
    In every other case [PathManagerStart] returns what the preceding
    [PathManagerInitialize] returned: 0 when the module is built in or
    enabled, and then the objects are initialised, the queue is created,
    the previous locus is allocated and zeroed and the task is registered,
    whether or not it could be created; -1 otherwise, and then nothing is
    created. *)
Theorem start_succeeds_as_initialize_did builtin admin allocated created s :
  match PathManagerInitialize builtin admin allocated s with
  | None =>
      (builtin = true \/ admin = ADMINSTATE_ENABLED) /\ allocated = false
  | Some (r, s1) =>
      (builtin = true \/ admin = ADMINSTATE_ENABLED -> allocated = true)
      /\ fst (PathManagerStart created s1) = r
      /\ (r = 0 \/ r = -1)
      /\ (r = 0 <-> builtin = true \/ admin = ADMINSTATE_ENABLED)
      /\ (r = 0 ->
          objects_initialized s1 = true /\ queue_created s1 = true
          /\ previousLocus_block s1
             = Some (mkPreviousLocus zero_NED F32.zero)
          /\ taskHandle (snd (PathManagerStart created s1)) = created
          /\ task_monitored (snd (PathManagerStart created s1)) = true)
      /\ (r = -1 ->
          PathManagerStart created s1 = (-1, s1)
          /\ taskHandle s1 = false
          /\ objects_initialized s1 = objects_initialized s
          /\ queue_created s1 = queue_created s
          /\ previousLocus_block s1 = previousLocus_block s)
  end.
Proof.
  unfold PathManagerInitialize, PathManagerStart.
  destruct builtin, admin, allocated; cbn; repeat split; auto;
    try discriminate; try (intros [|]; discriminate).
Qed.

(** X2. The task leaves the wait for the path follower exactly when a poll
    finds it running, after one delay per poll that did not; it then has
    cleared the alarm. As long as no poll finds it running the alarm is
    critical from the first poll on. The wait writes nothing else. *)
Theorem follower_awaited_before_loop polls : forall o,
  let r := await_follower polls o in
  fst (fst r) = existsb (fun b => b) polls
  /\ snd r = leading_false polls
  /\ same_inputs o (snd (fst r))
  /\ PathManagerStatus (snd (fst r)) = PathManagerStatus o
  /\ (fst (fst r) = true ->
      Alarm_PathManager (snd (fst r)) = ALARM_CLEAR
      /\ nth (snd r) polls false = true)
  /\ (fst (fst r) = false ->
      snd r = length polls
      /\ Alarm_PathManager (snd (fst r))
         = match polls with
           | [] => Alarm_PathManager o
           | _ :: _ => ALARM_CRITICAL
           end).
Proof.
  induction polls as [|b rest IH]; intros o.
  - cbn. repeat split; discriminate.
  - destruct b.
    + cbn. repeat split; discriminate.
    + cbn [await_follower leading_false existsb orb length].
      specialize (IH (AlarmsSet_PathManager ALARM_CRITICAL o)).
      cbv zeta in IH.
      destruct (await_follower rest (AlarmsSet_PathManager ALARM_CRITICAL o))
        as [[entered o'] delays].
      cbn [fst snd] in *.
      destruct IH as (He & Hd & Hin & Hst & Hyes & Hno).
      split; [exact He |]. split; [congruence |].
      split; [exact Hin |]. split; [exact Hst |].
      split.
      * intros Hen. destruct (Hyes Hen) as [Ha Hn]. split; [exact Ha |].
        cbn [nth]. exact Hn.
      * intros Hen. destruct (Hno Hen) as [Hl Ha]. split; [congruence |].
        rewrite Ha. destruct rest; reflexivity.
Qed.

(** ** The accelerometer samples *)

Lemma drain_accels_spec reads fuel : forall i acc,
  (31 <= i + fuel)%nat -> (i <= 31)%nat ->
  let r := drain_accels fuel reads i acc in
  let n := fst (fst (fst r)) in
  (i < n <= 32)%nat
  /\ (forall k, (i <= k)%nat -> (S k < n)%nat -> 0 < fst (reads k))
  /\ ((n < 32)%nat -> fst (reads (pred n)) <= 0)
  /\ (snd (fst (fst r)), snd (fst r)) = reads (pred n).
Proof.
  induction fuel as [|fuel IH]; intros i acc Hf Hi; cbv zeta;
    cbn [drain_accels]; destruct (reads i) as [remaining d] eqn:Hr.
  - destruct (Z.ltb_spec (Z.of_nat (S i)) 32); [lia |].
    cbn [andb fst snd pred]. rewrite Hr.
    repeat split; intros; cbn [fst]; first [reflexivity | lia].
  - destruct (Z.ltb_spec (Z.of_nat (S i)) 32) as [Hlt | Hge];
      [destruct (Z.ltb_spec 0 remaining) as [Hpos | Hnon] |];
      cbn [andb].
    + specialize (IH (S i) (add_sample acc d) ltac:(lia) ltac:(lia)).
      cbv zeta in IH.
      destruct (drain_accels fuel reads (S i) (add_sample acc d))
        as [[[n rem] d'] acc'].
      cbn [fst snd] in *. destruct IH as (Hn & Hall & Hstop & Hlast).
      repeat split; try lia; try assumption.
      intros k Hk1 Hk2.
      destruct (Nat.eq_dec k i) as [-> | Hne].
      * rewrite Hr. exact Hpos.
      * apply Hall; lia.
    + cbn [fst snd pred]. rewrite Hr.
      repeat split; intros; cbn [fst]; first [reflexivity | lia].
    + cbn [fst snd pred]. rewrite Hr.
      repeat split; intros; cbn [fst]; first [reflexivity | lia].
Qed.

(** X16. [updateSensors] reads the accelerometer at least once and at most
    32 times; every read but the last reported samples left, and the last
    one reported none unless it was the 32nd; [gyrotemp[0]] and [accels]
    are the return value and the sample of the last read; and the count
    that the sums are divided by is not zero. *)
Theorem accelerometer_drain_is_bounded reads :
  let u := update_accels reads in
  (1 <= reads_made u <= 32)%nat
  /\ (forall k, (S k < reads_made u)%nat -> 0 < fst (reads k))
  /\ ((reads_made u < 32)%nat -> fst (reads (pred (reads_made u))) <= 0)
  /\ (gyrotemp_0 u, accels u) = reads (pred (reads_made u))
  /\ F32.of_int (Z.of_nat (reads_made u)) <> F32.zero.
Proof.
  cbv zeta. unfold update_accels.
  pose proof (drain_accels_spec reads 31 0
                (mkSums F32.zero F32.zero F32.zero) ltac:(lia) ltac:(lia)) as H.
  cbv zeta in H.
  destruct (drain_accels 31 reads 0 (mkSums F32.zero F32.zero F32.zero))
    as [[[n rem] d] acc].
  cbn [fst snd reads_made gyrotemp_0 accels] in *.
  destruct H as (Hn & Hall & Hstop & Hlast).
  split; [lia |]. split; [intros k Hk; apply Hall; lia |].
  split; [exact Hstop |]. split; [exact Hlast |].
  assert (Hcases : In n (seq 1 32)) by (apply in_seq; lia).
  cbn in Hcases.
  repeat (destruct Hcases as [<- | Hcases]; [vm_compute; discriminate |]).
  contradiction.
Qed.

(** ** The further properties on the scenarios *)

(** The start of a module enabled in the settings, with the block
    allocated. *)
Lemma start_succeeds_as_initialize_did_witness :
  fst (PathManagerStart true
         (mkStartup true false false true true
            (Some (mkPreviousLocus zero_NED F32.zero)))) = 0.
Proof.
  pose proof (start_succeeds_as_initialize_did false ADMINSTATE_ENABLED true
                true startup_zero) as H.
  cbn in H. destruct H as (_ & Hstart & _). exact Hstart.
Defined.

(** The follower is found running at the third poll. *)
Lemma follower_awaited_before_loop_witness :
  let r :=
    await_follower [false; false; true]
      (objects (Reference.bball_input 0 0 0)) in
  snd r = 2%nat /\ Alarm_PathManager (snd (fst r)) = ALARM_CLEAR.
Proof.
  destruct (follower_awaited_before_loop [false; false; true]
              (objects (Reference.bball_input 0 0 0)))
    as (_ & Hd & _ & _ & Hyes & _).
  split; [exact Hd |]. apply Hyes. reflexivity.
Defined.

(** The activation of the single-segment program. *)
Lemma activation_restarts_program_witness :
  advanced (snd Reference.after_activation) = true
  /\ pathplanner_active (fst (fst Reference.after_activation)) = true.
Proof.
  destruct (activation_restarts_program Reference.platform
              Reference.library Reference.entry_state
              (Reference.bball_input 0 0 100) PATHPLANNER
              (objects (Reference.bball_input 0 0 100)))
    as (Hadv & _ & _ & Hact & _).
  - vm_compute. reflexivity.
  - vm_compute. reflexivity.
  - split; [exact Hadv | exact Hact].
Defined.

(** The path is reported not ready for one iteration of the
    single-segment program, then ready again. *)
Lemma leaving_guidance_restarts_program_witness :
  let st1 :=
    fst (fst (loop_body Reference.platform Reference.library
                (fst (fst Reference.after_activation))
                (Scenarios.not_ready_input 200))) in
  guidanceType st1 = NOMANAGER
  /\ PathCounter
       (pathManagerStatus
          (fst (fst (loop_body Reference.platform Reference.library st1
                       (Reference.bball_input 0 0 300))))) = 2.
Proof.
  destruct (leaving_guidance_restarts_program Reference.platform
              Reference.library (fst (fst Reference.after_activation))
              (Scenarios.not_ready_input 200))
    as (_ & _ & _ & _ & Hg & Hnext).
  - vm_compute. reflexivity.
  - split; [exact Hg |].
    destruct (Hnext (Reference.bball_input 0 0 300)) as (_ & _ & Hpc).
    + vm_compute. reflexivity.
    + vm_compute. reflexivity.
    + exact Hpc.
Defined.

(** Two iterations in the path planner flight mode, without
    [PATH_PLANNER]. *)
Lemma program_loaded_once_per_mode_change_witness :
  let st1 :=
    fst (fst (loop_body Scenarios.small_platform Reference.library
                Reference.entry_state (Reference.bball_input 0 0 100))) in
  select_guidance Scenarios.small_platform Reference.library st1
    (objects (Reference.bball_input 50 0 200))
  = Some (guidanceType st1, true, objects (Reference.bball_input 50 0 200)).
Proof.
  apply (program_loaded_once_per_mode_change Scenarios.small_platform
           Reference.library Reference.entry_state
           (Reference.bball_input 0 0 100) (Reference.bball_input 50 0 200)).
  - vm_compute. reflexivity.
  - reflexivity.
  - reflexivity.
Defined.

(** The iteration after the activation, away from the goal. *)
Lemma counters_move_only_by_restart_and_advance_witness :
  ActiveSegment
    (pathManagerStatus
       (fst (fst (loop_body Reference.platform Reference.library
                    (fst (fst Reference.after_activation))
                    (Reference.bball_input 50 0 200)))))
  = ActiveSegment (pathManagerStatus (fst (fst Reference.after_activation))).
Proof.
  apply (counters_move_only_by_restart_and_advance Reference.platform
           Reference.library (fst (fst Reference.after_activation))
           (Reference.bball_input 50 0 200)).
  vm_compute. reflexivity.
Defined.

(** The descriptors and the position after an iteration on the goal. *)
Lemma module_writes_only_status_and_alarm_witness :
  same_inputs (objects (Reference.bball_input 100 0 200))
    (snd (fst Reference.at_goal)).
Proof.
  apply (module_writes_only_status_and_alarm Reference.platform
           Reference.library (fst (fst Reference.after_activation))
           (Reference.bball_input 100 0 200)).
  reflexivity.
Defined.

(** The iteration whose overshoot check finds the vehicle at (200,0). *)
Lemma alarm_only_with_overshoot_on_straight_segment_witness :
  let r :=
    loop_body Reference.platform Reference.library
      Reference.overshoot_check_pending
      (Reference.halfplane_input 200 0 1100) in
  Status (pathManagerStatus (fst (fst r))) = STATUS_OVERSHOOT
  /\ (pathManagerStatus (fst (fst r))
      = pathManagerStatus Reference.overshoot_check_pending
      \/ (overshoot_checked (snd r) = true
          /\ F32.eq
               (PathCurvature
                  (pathSegmentDescriptor_current
                     Reference.overshoot_check_pending)) F32.zero = true
          /\ Status (pathManagerStatus (fst (fst r))) = STATUS_OVERSHOOT
          /\ PathManagerStatus (snd (fst r)) = pathManagerStatus (fst (fst r))
          /\ Alarm_PathManager (snd (fst r)) = ALARM_CRITICAL)).
Proof.
  assert (Hst :
    Status
      (pathManagerStatus
         (fst (fst (loop_body Reference.platform Reference.library
                      Reference.overshoot_check_pending
                      (Reference.halfplane_input 200 0 1100)))))
    = STATUS_OVERSHOOT) by (vm_compute; reflexivity).
  split; [exact Hst |].
  destruct (alarm_only_with_overshoot_on_straight_segment
              Reference.platform Reference.library
              Reference.overshoot_check_pending
              (Reference.halfplane_input 200 0 1100) PATHPLANNER true
              (objects (Reference.halfplane_input 200 0 1100)))
    as [_ H].
  - vm_compute. reflexivity.
  - exact (H Hst).
Defined.

(** The program that holds a position, with the vehicle far away. *)
Lemma no_overshoot_on_segment_without_length_witness :
  checkOvershoot Reference.library Scenarios.holding
    (Reference.objects_at Scenarios.hold_program 1000 1000
       SWITCHINGSTRATEGY_HALFPLANE)
  = (Scenarios.holding,
     Reference.objects_at Scenarios.hold_program 1000 1000
       SWITCHINGSTRATEGY_HALFPLANE).
Proof.
  apply (no_overshoot_on_segment_without_length Reference.library
           Scenarios.holding
           (Reference.objects_at Scenarios.hold_program 1000 1000
              SWITCHINGSTRATEGY_HALFPLANE));
    vm_compute; reflexivity.
Defined.

(** A segment entered 250 ticks after the wake-up time is timed out at
    once, with a timeout of 10 s. *)
Lemma segment_timed_out_wraps_witness :
  segment_timed_out Reference.platform Scenarios.entered_late = true.
Proof.
  destruct (segment_timed_out_wraps Reference.platform
              Scenarios.entered_late) as [_ Hwrap].
  - vm_compute. reflexivity.
  - split; vm_compute; first [discriminate | reflexivity].
  - split; vm_compute; first [discriminate | reflexivity].
  - split; vm_compute; first [discriminate | reflexivity].
  - rewrite Hwrap; vm_compute; reflexivity.
Defined.

(** Two iterations on the end locus with the unknown strategy. *)
Lemma unknown_strategy_never_advances_witness :
  ActiveSegment
    (pathManagerStatus
       (fst (run Reference.platform Reference.library
               Scenarios.on_unknown_strategy
               [Scenarios.unknown_input 100 0 200;
                Scenarios.unknown_input 100 0 300]))) = 1.
Proof.
  apply (unknown_strategy_never_advances Reference.platform
           Reference.library
           [Scenarios.unknown_input 100 0 200;
            Scenarios.unknown_input 100 0 300]
           Scenarios.on_unknown_strategy).
  - vm_compute. reflexivity.
  - vm_compute. reflexivity.
  - intros inp [<- | [<- | []]]; vm_compute; reflexivity.
Defined.

(** Two advances along the program of two lines. *)
Lemma consecutive_advances_chain_witness :
  let o :=
    Reference.objects_at Scenarios.two_lines 0 0 SWITCHINGSTRATEGY_BBALL in
  let st1 :=
    fst (advanceSegment Reference.platform Reference.library
           Reference.entry_state o 0 (Reference.line_to 0 0 0)) in
  let st2 :=
    fst (advanceSegment Reference.platform Reference.library st1 o 100
           (Reference.line_to 0 0 0)) in
  previousLocus st2
  = mkPreviousLocus (SwitchingLocus (pathSegmentDescriptor_current st1))
      (FinalVelocity (pathSegmentDescriptor_current st1)).
Proof.
  apply (consecutive_advances_chain Reference.platform Reference.library
           Reference.entry_state
           (Reference.objects_at Scenarios.two_lines 0 0
              SWITCHINGSTRATEGY_BBALL)
           (Reference.objects_at Scenarios.two_lines 0 0
              SWITCHINGSTRATEGY_BBALL)
           0 100 (Reference.line_to 0 0 0) (Reference.line_to 0 0 0)).
  - vm_compute. discriminate.
  - vm_compute. reflexivity.
  - vm_compute. reflexivity.
  - reflexivity.
Defined.

(** The advance from index 2 of the single-segment program. *)
Lemma advance_past_end_keeps_uninitialised_past_witness :
  previousLocus
    (fst (advanceSegment Reference.platform Reference.library
            (fst (fst Reference.at_goal))
            (objects (Reference.bball_input 100 0 300)) 300
            (Reference.line_to 7 7 7)))
  = mkPreviousLocus (Reference.point 7 7) (Reference.fl 7).
Proof.
  apply (advance_past_end_keeps_uninitialised_past Reference.platform
           Reference.library (fst (fst Reference.at_goal))
           (objects (Reference.bball_input 100 0 300)) 300
           (Reference.line_to 7 7 7)).
  vm_compute. discriminate.
Defined.

(** The iteration on the goal with the strategy changed in the object
    only. *)
Lemma settings_take_effect_only_through_callback_witness :
  fst (fst (loop_body Reference.platform Reference.library
              (fst (fst Reference.after_activation))
              (with_settings_input
                 (mkSettings SWITCHINGSTRATEGY_HALFPLANE F32.zero
                    (Reference.fl 500))
                 (mkAirspeeds (Reference.fl 20))
                 (Reference.bball_input 100 0 200))))
  = fst (fst Reference.at_goal).
Proof.
  apply (settings_take_effect_only_through_callback Reference.platform
           Reference.library (fst (fst Reference.after_activation))
           (Reference.bball_input 100 0 200)).
  reflexivity.
Defined.

(** An accelerometer with three samples. *)
Lemma accelerometer_drain_is_bounded_witness :
  (1 <= reads_made (update_accels Scenarios.three_samples) <= 32)%nat
  /\ fst (Scenarios.three_samples
            (pred (reads_made (update_accels Scenarios.three_samples))))
     <= 0.
Proof.
  destruct (accelerometer_drain_is_bounded Scenarios.three_samples)
    as (Hn & _ & Hstop & _).
  split; [exact Hn |]. apply Hstop. vm_compute. lia.
Defined.

(** ** The index at the largest value of its field *)

(** With the vehicle on the end locus every iteration advances: the stale
    descriptor keeps the proximity-ball test true. *)
Lemma overrun_step st inp :
  reachable Reference.platform Reference.library st ->
  overrunning st ->
  objects inp = objects (Reference.bball_input 100 0 0) ->
  let r := loop_body Reference.platform Reference.library st inp in
  advanced (snd r) = true
  /\ ActiveSegment (pathManagerStatus (fst (fst r)))
     = wrap 16 (ActiveSegment (pathManagerStatus st) + 1)
  /\ (ActiveSegment (pathManagerStatus st) + 1 < 2 ^ 16 ->
      overrunning (fst (fst r))).
Proof.
  intros Hr (Hact & Hg & Hcur & Hset & Hidx) Hobj. cbv zeta.
  assert (Heq : F32.eq (PathCurvature (pathSegmentDescriptor_current st))
                  F32.zero = true)
    by (rewrite Hcur; vm_compute; reflexivity).
  destruct (reachable_straight_at_zero _ _ st Hr Heq) as [Hto Hco].
  assert (Hs : -1 <= SIGN Reference.library
                      (PathCurvature (pathSegmentDescriptor_current st)) <= 1)
    by (rewrite Hcur; vm_compute; split; discriminate).
  assert (He : engaged Reference.platform (guidanceType st) (objects inp)
               = true)
    by (rewrite Hg, Hobj; reflexivity).
  assert (Hgoal : checkGoalCondition Reference.library st (objects inp)
                  = true)
    by (unfold checkGoalCondition; rewrite Hset, Hcur, Hobj;
        vm_compute; reflexivity).
  destruct (loop_body_goal_decides Reference.platform Reference.library
              st inp Hto Hco
              (fun o => update_arc_measure_straight _ _ st o Heq)
              Hs Hact He) as [Hadv Hex].
  destruct (Hex Hgoal) as (st2 & Hbody & Hseg & Hst2 & Hg2 & Hact2).
  destruct Hseg as (Hcur2 & _ & _ & _ & Hset2 & _).
  rewrite Hbody.
  assert (Hnext :
    ActiveSegment
      (pathManagerStatus
         (fst (advanceSegment Reference.platform Reference.library st2
                 (objects inp) (tickCount inp) (uninitialized_past inp))))
    = wrap 16 (ActiveSegment (pathManagerStatus st) + 1))
    by (rewrite advanceSegment_ActiveSegment, Hst2; reflexivity).
  split; [rewrite Hadv; exact Hgoal | split; [exact Hnext |]].
  intros Hb.
  assert (Hw : wrap 16 (ActiveSegment (pathManagerStatus st) + 1)
               = ActiveSegment (pathManagerStatus st) + 1)
    by (apply wrap_small; lia).
  pose proof (advanceSegment_frame Reference.platform Reference.library st2
                (objects inp) (tickCount inp) (uninitialized_past inp))
    as (_ & Hfg & Hfa & Hfs & _).
  unfold overrunning.
  rewrite Hfg, Hfa, Hfs, Hnext, Hw, Hg2, Hact2, Hset2, Hset,
    advanceSegment_current.
  repeat split; try reflexivity; try assumption; try lia.
  unfold loaded_descriptor. rewrite Hst2.
  change (ActiveSegment_bits Reference.platform) with 16. rewrite Hw.
  rewrite InstGet_past_end; [congruence |].
  rewrite Hobj. change (UAVObjGetNumInstances _) with 2. lia.
Qed.

(** A run of such iterations raises the index by one per iteration for as
    long as it stays within the field. *)
Lemma overrun_run inputs : forall st,
  reachable Reference.platform Reference.library st ->
  overrunning st ->
  (forall inp, In inp inputs ->
     objects inp = objects (Reference.bball_input 100 0 0)) ->
  ActiveSegment (pathManagerStatus st) + Z.of_nat (length inputs) < 2 ^ 16 ->
  let st' := fst (run Reference.platform Reference.library st inputs) in
  reachable Reference.platform Reference.library st'
  /\ overrunning st'
  /\ ActiveSegment (pathManagerStatus st')
     = ActiveSegment (pathManagerStatus st) + Z.of_nat (length inputs).
Proof.
  induction inputs as [|inp rest IH]; intros st Hr Hinv Hin Hb; cbv zeta.
  - cbn. repeat split; try assumption; try apply Hinv. lia.
  - cbn [run length] in *.
    pose proof (overrun_step st inp Hr Hinv (Hin inp (or_introl eq_refl)))
      as (_ & Hidx & Hkeep).
    pose proof (reach_iteration _ _ st inp Hr) as Hr1.
    destruct (loop_body Reference.platform Reference.library st inp)
      as [[st1 o1] tr]. cbn [fst snd] in *.
    assert (Hw : wrap 16 (ActiveSegment (pathManagerStatus st) + 1)
                 = ActiveSegment (pathManagerStatus st) + 1)
      by (apply wrap_small; destruct Hinv as (_ & _ & _ & _ & ?); lia).
    specialize (IH st1 Hr1 (Hkeep ltac:(lia))
                  (fun i Hi => Hin i (or_intror Hi)) ltac:(lia)).
    cbv zeta in IH.
    destruct (run Reference.platform Reference.library st1 rest)
      as [st2 trs]. cbn [fst] in *.
    destruct IH as (Hr2 & Hinv2 & Hidx2).
    split; [exact Hr2 | split; [exact Hinv2 | lia]].
Qed.

Lemma overrun_inputs_spec n :
  (forall inp, In inp (Reference.overrun_inputs n) ->
     objects inp = objects (Reference.bball_input 100 0 0))
  /\ length (Reference.overrun_inputs n) = n.
Proof.
  unfold Reference.overrun_inputs. split.
  - intros inp Hin. apply in_map_iff in Hin. destruct Hin as (k & <- & _).
    reflexivity.
  - rewrite length_map, length_seq. reflexivity.
Qed.

(** The task reaches the largest index of the 16-bit field. *)
Lemma at_top_of_field_spec :
  reachable Reference.platform Reference.library Reference.at_top_of_field
  /\ overrunning Reference.at_top_of_field
  /\ ActiveSegment (pathManagerStatus Reference.at_top_of_field) = 65535.
Proof.
  unfold Reference.at_top_of_field.
  destruct (overrun_inputs_spec (Z.to_nat 65534)) as [Hin Hlen].
  destruct (overrun_run (Reference.overrun_inputs (Z.to_nat 65534))
              (fst (fst Reference.after_activation))) as (Hr & Hinv & Hidx).
  - apply (reach_iteration Reference.platform Reference.library
             Reference.entry_state (Reference.bball_input 0 0 100)).
    apply reach_initial.
  - unfold overrunning. repeat split; vm_compute; congruence.
  - exact Hin.
  - rewrite Hlen, Z2Nat.id by lia.
    change (ActiveSegment
              (pathManagerStatus (fst (fst Reference.after_activation))))
      with 1. reflexivity.
  - split; [exact Hr | split; [exact Hinv |]].
    rewrite Hidx, Hlen, Z2Nat.id by lia. reflexivity.
Qed.

(** A counterexample to C2 as stated. In the single-segment program under
    the proximity-ball strategy, with the vehicle staying on the end
    locus, every iteration advances past the end of the program; 65534
    iterations after the activation the index is 65535, the largest value
    of its field. The next iteration advances again, and the index after
    that advance is 0, not 65536: this execution of [advanceSegment] does
    not increment the index by one, and the index does not increase. *)
Lemma advance_from_largest_index_wraps :
  reachable Reference.platform Reference.library Reference.at_top_of_field
  /\ ActiveSegment (pathManagerStatus Reference.at_top_of_field) = 65535
  /\ (let r :=
        loop_body Reference.platform Reference.library
          Reference.at_top_of_field (Reference.bball_input 100 0 6553700) in
      advanced (snd r) = true
      /\ ActiveSegment (pathManagerStatus (fst (fst r))) = 0)
  /\ ~ (forall P L st o now past0,
          reachable P L st ->
          ActiveSegment
            (pathManagerStatus (fst (advanceSegment P L st o now past0)))
          = ActiveSegment (pathManagerStatus st) + 1).
Proof.
  destruct at_top_of_field_spec as (Hr & Hinv & Hidx).
  split; [exact Hr | split; [exact Hidx | split]].
  - cbv zeta.
    destruct (overrun_step Reference.at_top_of_field
                (Reference.bball_input 100 0 6553700) Hr Hinv eq_refl)
      as (Hadv & Hnext & _).
    split; [exact Hadv |]. rewrite Hnext, Hidx. reflexivity.
  - intros H.
    specialize (H Reference.platform Reference.library
                  Reference.at_top_of_field
                  (objects (Reference.bball_input 100 0 0)) 0
                  (Reference.line_to 0 0 0) Hr).
    rewrite advanceSegment_ActiveSegment, Hidx in H.
    vm_compute in H. discriminate H.
Qed.
